(** * node-tile38: the query builder and the live geofence channel

    A shallow embedding of [src/tile38_query.ts] (class [Tile38Query] and its
    option bag [Tile38QueryOpts]) and of the live geofence socket wrapper
    (class [LiveGeofence]), with the properties their specification states. *)

From Stdlib Require Import List String Ascii ZArith Bool Lia.
Import ListNotations.
Local Open Scope string_scope.
Local Open Scope list_scope.

(** ** JavaScript values

    The builder forwards its arguments untouched, so a value of type [any] is
    one of the primitives below.  Numbers are carried as integers: the code
    never computes with them, it only compares one of them with 1 and 22 (in
    [hashes]) and reads [values.length]. *)

Definition number := Z.

Inductive JsVal : Type :=
| JUndefined
| JNull
| JBool (b : bool)
| JNum (n : number)
| JStr (s : string).

(** An optional parameter ([precision?: number], a missing trailing argument):
    [None] is [undefined]. *)
Definition of_optional (p : option number) : JsVal :=
  match p with
  | Some n => JNum n
  | None => JUndefined
  end.

(** [a < b] and [a > b] when [a] may be [undefined]: [undefined] converts to
    NaN and every comparison with NaN is false. *)
Definition js_lt (a : option number) (b : number) : bool :=
  match a with
  | Some x => (x <? b)%Z
  | None => false
  end.

Definition js_gt (a : option number) (b : number) : bool :=
  match a with
  | Some x => (b <? x)%Z
  | None => false
  end.

(** [a != undefined] (loose inequality) on an optional number. *)
Definition js_neq_undefined (a : option number) : bool :=
  match a with
  | Some _ => true
  | None => false
  end.

(** [Array.prototype.join] on an array of strings. *)
Definition join (sep : string) (l : list string) : string := String.concat sep l.

(** The double quote character, for the template literal of [whereEval]. *)
Definition dquote : string := String (ascii_of_nat 34) EmptyString.

(** [addToArray]: adds the elements of [arr2] to [arr1]; when [arr1] does not
    exist it returns [arr2]. *)
Definition addToArray (arr1 : option (list JsVal)) (arr2 : list JsVal) : list JsVal :=
  match arr1 with
  | Some a => a ++ arr2
  | None => arr2
  end.

(** ** Enumerations of the source *)

Inductive OrderType := Ascending | Descending.

Definition OrderType_value (v : OrderType) : string :=
  match v with
  | Ascending => "ASC"
  | Descending => "DESC"
  end.

Inductive DetectType := Inside | Outside | Enter | Exit | Cross.

Definition DetectType_value (v : DetectType) : string :=
  match v with
  | Inside => "inside"
  | Outside => "outside"
  | Enter => "enter"
  | Exit => "exit"
  | Cross => "cross"
  end.

Inductive CommandType := Cdel | Cdrop | Cset.

Definition CommandType_value (v : CommandType) : string :=
  match v with
  | Cdel => "del"
  | Cdrop => "drop"
  | Cset => "set"
  end.

Inductive OutputType := Ocount | Oids | Oobjects | Opoints | Obounds | Ohashes.

Definition OutputType_value (v : OutputType) : string :=
  match v with
  | Ocount => "count"
  | Oids => "ids"
  | Oobjects => "objects"
  | Opoints => "points"
  | Obounds => "bounds"
  | Ohashes => "hashes"
  end.

(** A GeoJSON object is opaque to the builder, which only passes it to
    [JSON.stringify]; it is represented by what [JSON.stringify] makes of it:
    a text, or a [TypeError] for an object that holds a cycle or a BigInt
    (its [properties] are of type [any]). *)
Inductive GeoJsonObject :=
| serializable (text : string)
| unserializable.

(** [JSON.stringify]: the text it returns, or [None] when it throws. *)
Definition JSON_stringify (g : GeoJsonObject) : option string :=
  match g with
  | serializable text => Some text
  | unserializable => None
  end.

(** ** The option bag [Tile38QueryOpts] *)

(** The property names of the option bag, as [commandArr] looks them up. *)
Inductive Name :=
| Ncursor | Nlimit | Nsparse | Nmatches | Norder | Ndistance | Nwhere
| NwhereIn | NwhereEval | NwhereEvalSha | Nclip | Nnofields | Nfence
| Ndetect | Ncommands | Noutput | NgetObject | Nbounds | Ngeojson | Ntile
| NquadKey | Nhash | Npoint | Ncircle | Nroam.

Definition Name_eq_dec (a b : Name) : {a = b} + {a <> b}.
Proof. decide equality. Defined.

Definition Name_eqb (a b : Name) : bool := if Name_eq_dec a b then true else false.

(** What [o[c]] evaluates to: [undefined], an array, or a simple string. *)
Inductive OptVal :=
| Undefined
| Array (l : list JsVal)
| Simple (s : string).

Module Tile38QueryOpts.

Record t := mk {
  matches : list JsVal;
  order : OrderType;
  distance : option string;
  where_ : list JsVal;
  whereIn : list JsVal;
  whereEval : list JsVal;
  whereEvalSha : list JsVal;
  clip : option string;
  nofields : option string;
  detect : option (string * string);
  commands : option (list string);
  output : option (list JsVal);
  getObject : option (list JsVal);
  bounds : option (list JsVal);
  geojson : option (list string);
  tile : option (list JsVal);
  quadKey : option (list JsVal);
  hash : option (list JsVal);
  circle : option (list JsVal);
  point : option (list JsVal);
  roam : option (list JsVal);
  fence : option string;
  cursor : option (string * number);
  limit : option (string * number);
  sparse : option (string * number)
}.

(** [new Tile38QueryOpts()]: the field initialisers of the class. *)
Definition new : t :=
  mk [] Ascending None [] [] [] [] None None None None None None None None
     None None None None None None None None None None.

(** Assignments [o.field = v]. *)
Definition set_matches v (o : t) : t :=
  let '(mk _ f2 f3 f4 f5 f6 f7 f8 f9 f10 f11 f12 f13 f14 f15 f16 f17 f18 f19 f20 f21 f22 f23 f24 f25) := o in
  mk v f2 f3 f4 f5 f6 f7 f8 f9 f10 f11 f12 f13 f14 f15 f16 f17 f18 f19 f20 f21 f22 f23 f24 f25.
Definition set_order v (o : t) : t :=
  let '(mk f1 _ f3 f4 f5 f6 f7 f8 f9 f10 f11 f12 f13 f14 f15 f16 f17 f18 f19 f20 f21 f22 f23 f24 f25) := o in
  mk f1 v f3 f4 f5 f6 f7 f8 f9 f10 f11 f12 f13 f14 f15 f16 f17 f18 f19 f20 f21 f22 f23 f24 f25.
Definition set_distance v (o : t) : t :=
  let '(mk f1 f2 _ f4 f5 f6 f7 f8 f9 f10 f11 f12 f13 f14 f15 f16 f17 f18 f19 f20 f21 f22 f23 f24 f25) := o in
  mk f1 f2 v f4 f5 f6 f7 f8 f9 f10 f11 f12 f13 f14 f15 f16 f17 f18 f19 f20 f21 f22 f23 f24 f25.
Definition set_where v (o : t) : t :=
  let '(mk f1 f2 f3 _ f5 f6 f7 f8 f9 f10 f11 f12 f13 f14 f15 f16 f17 f18 f19 f20 f21 f22 f23 f24 f25) := o in
  mk f1 f2 f3 v f5 f6 f7 f8 f9 f10 f11 f12 f13 f14 f15 f16 f17 f18 f19 f20 f21 f22 f23 f24 f25.
Definition set_whereIn v (o : t) : t :=
  let '(mk f1 f2 f3 f4 _ f6 f7 f8 f9 f10 f11 f12 f13 f14 f15 f16 f17 f18 f19 f20 f21 f22 f23 f24 f25) := o in
  mk f1 f2 f3 f4 v f6 f7 f8 f9 f10 f11 f12 f13 f14 f15 f16 f17 f18 f19 f20 f21 f22 f23 f24 f25.
Definition set_whereEval v (o : t) : t :=
  let '(mk f1 f2 f3 f4 f5 _ f7 f8 f9 f10 f11 f12 f13 f14 f15 f16 f17 f18 f19 f20 f21 f22 f23 f24 f25) := o in
  mk f1 f2 f3 f4 f5 v f7 f8 f9 f10 f11 f12 f13 f14 f15 f16 f17 f18 f19 f20 f21 f22 f23 f24 f25.
Definition set_whereEvalSha v (o : t) : t :=
  let '(mk f1 f2 f3 f4 f5 f6 _ f8 f9 f10 f11 f12 f13 f14 f15 f16 f17 f18 f19 f20 f21 f22 f23 f24 f25) := o in
  mk f1 f2 f3 f4 f5 f6 v f8 f9 f10 f11 f12 f13 f14 f15 f16 f17 f18 f19 f20 f21 f22 f23 f24 f25.
Definition set_clip v (o : t) : t :=
  let '(mk f1 f2 f3 f4 f5 f6 f7 _ f9 f10 f11 f12 f13 f14 f15 f16 f17 f18 f19 f20 f21 f22 f23 f24 f25) := o in
  mk f1 f2 f3 f4 f5 f6 f7 v f9 f10 f11 f12 f13 f14 f15 f16 f17 f18 f19 f20 f21 f22 f23 f24 f25.
Definition set_nofields v (o : t) : t :=
  let '(mk f1 f2 f3 f4 f5 f6 f7 f8 _ f10 f11 f12 f13 f14 f15 f16 f17 f18 f19 f20 f21 f22 f23 f24 f25) := o in
  mk f1 f2 f3 f4 f5 f6 f7 f8 v f10 f11 f12 f13 f14 f15 f16 f17 f18 f19 f20 f21 f22 f23 f24 f25.
Definition set_detect v (o : t) : t :=
  let '(mk f1 f2 f3 f4 f5 f6 f7 f8 f9 _ f11 f12 f13 f14 f15 f16 f17 f18 f19 f20 f21 f22 f23 f24 f25) := o in
  mk f1 f2 f3 f4 f5 f6 f7 f8 f9 v f11 f12 f13 f14 f15 f16 f17 f18 f19 f20 f21 f22 f23 f24 f25.
Definition set_commands v (o : t) : t :=
  let '(mk f1 f2 f3 f4 f5 f6 f7 f8 f9 f10 _ f12 f13 f14 f15 f16 f17 f18 f19 f20 f21 f22 f23 f24 f25) := o in
  mk f1 f2 f3 f4 f5 f6 f7 f8 f9 f10 v f12 f13 f14 f15 f16 f17 f18 f19 f20 f21 f22 f23 f24 f25.
Definition set_output v (o : t) : t :=
  let '(mk f1 f2 f3 f4 f5 f6 f7 f8 f9 f10 f11 _ f13 f14 f15 f16 f17 f18 f19 f20 f21 f22 f23 f24 f25) := o in
  mk f1 f2 f3 f4 f5 f6 f7 f8 f9 f10 f11 v f13 f14 f15 f16 f17 f18 f19 f20 f21 f22 f23 f24 f25.
Definition set_getObject v (o : t) : t :=
  let '(mk f1 f2 f3 f4 f5 f6 f7 f8 f9 f10 f11 f12 _ f14 f15 f16 f17 f18 f19 f20 f21 f22 f23 f24 f25) := o in
  mk f1 f2 f3 f4 f5 f6 f7 f8 f9 f10 f11 f12 v f14 f15 f16 f17 f18 f19 f20 f21 f22 f23 f24 f25.
Definition set_bounds v (o : t) : t :=
  let '(mk f1 f2 f3 f4 f5 f6 f7 f8 f9 f10 f11 f12 f13 _ f15 f16 f17 f18 f19 f20 f21 f22 f23 f24 f25) := o in
  mk f1 f2 f3 f4 f5 f6 f7 f8 f9 f10 f11 f12 f13 v f15 f16 f17 f18 f19 f20 f21 f22 f23 f24 f25.
Definition set_geojson v (o : t) : t :=
  let '(mk f1 f2 f3 f4 f5 f6 f7 f8 f9 f10 f11 f12 f13 f14 _ f16 f17 f18 f19 f20 f21 f22 f23 f24 f25) := o in
  mk f1 f2 f3 f4 f5 f6 f7 f8 f9 f10 f11 f12 f13 f14 v f16 f17 f18 f19 f20 f21 f22 f23 f24 f25.
Definition set_tile v (o : t) : t :=
  let '(mk f1 f2 f3 f4 f5 f6 f7 f8 f9 f10 f11 f12 f13 f14 f15 _ f17 f18 f19 f20 f21 f22 f23 f24 f25) := o in
  mk f1 f2 f3 f4 f5 f6 f7 f8 f9 f10 f11 f12 f13 f14 f15 v f17 f18 f19 f20 f21 f22 f23 f24 f25.
Definition set_quadKey v (o : t) : t :=
  let '(mk f1 f2 f3 f4 f5 f6 f7 f8 f9 f10 f11 f12 f13 f14 f15 f16 _ f18 f19 f20 f21 f22 f23 f24 f25) := o in
  mk f1 f2 f3 f4 f5 f6 f7 f8 f9 f10 f11 f12 f13 f14 f15 f16 v f18 f19 f20 f21 f22 f23 f24 f25.
Definition set_hash v (o : t) : t :=
  let '(mk f1 f2 f3 f4 f5 f6 f7 f8 f9 f10 f11 f12 f13 f14 f15 f16 f17 _ f19 f20 f21 f22 f23 f24 f25) := o in
  mk f1 f2 f3 f4 f5 f6 f7 f8 f9 f10 f11 f12 f13 f14 f15 f16 f17 v f19 f20 f21 f22 f23 f24 f25.
Definition set_circle v (o : t) : t :=
  let '(mk f1 f2 f3 f4 f5 f6 f7 f8 f9 f10 f11 f12 f13 f14 f15 f16 f17 f18 _ f20 f21 f22 f23 f24 f25) := o in
  mk f1 f2 f3 f4 f5 f6 f7 f8 f9 f10 f11 f12 f13 f14 f15 f16 f17 f18 v f20 f21 f22 f23 f24 f25.
Definition set_point v (o : t) : t :=
  let '(mk f1 f2 f3 f4 f5 f6 f7 f8 f9 f10 f11 f12 f13 f14 f15 f16 f17 f18 f19 _ f21 f22 f23 f24 f25) := o in
  mk f1 f2 f3 f4 f5 f6 f7 f8 f9 f10 f11 f12 f13 f14 f15 f16 f17 f18 f19 v f21 f22 f23 f24 f25.
Definition set_roam v (o : t) : t :=
  let '(mk f1 f2 f3 f4 f5 f6 f7 f8 f9 f10 f11 f12 f13 f14 f15 f16 f17 f18 f19 f20 _ f22 f23 f24 f25) := o in
  mk f1 f2 f3 f4 f5 f6 f7 f8 f9 f10 f11 f12 f13 f14 f15 f16 f17 f18 f19 f20 v f22 f23 f24 f25.
Definition set_fence v (o : t) : t :=
  let '(mk f1 f2 f3 f4 f5 f6 f7 f8 f9 f10 f11 f12 f13 f14 f15 f16 f17 f18 f19 f20 f21 _ f23 f24 f25) := o in
  mk f1 f2 f3 f4 f5 f6 f7 f8 f9 f10 f11 f12 f13 f14 f15 f16 f17 f18 f19 f20 f21 v f23 f24 f25.
Definition set_cursor v (o : t) : t :=
  let '(mk f1 f2 f3 f4 f5 f6 f7 f8 f9 f10 f11 f12 f13 f14 f15 f16 f17 f18 f19 f20 f21 f22 _ f24 f25) := o in
  mk f1 f2 f3 f4 f5 f6 f7 f8 f9 f10 f11 f12 f13 f14 f15 f16 f17 f18 f19 f20 f21 f22 v f24 f25.
Definition set_limit v (o : t) : t :=
  let '(mk f1 f2 f3 f4 f5 f6 f7 f8 f9 f10 f11 f12 f13 f14 f15 f16 f17 f18 f19 f20 f21 f22 f23 _ f25) := o in
  mk f1 f2 f3 f4 f5 f6 f7 f8 f9 f10 f11 f12 f13 f14 f15 f16 f17 f18 f19 f20 f21 f22 f23 v f25.
Definition set_sparse v (o : t) : t :=
  let '(mk f1 f2 f3 f4 f5 f6 f7 f8 f9 f10 f11 f12 f13 f14 f15 f16 f17 f18 f19 f20 f21 f22 f23 f24 _) := o in
  mk f1 f2 f3 f4 f5 f6 f7 f8 f9 f10 f11 f12 f13 f14 f15 f16 f17 f18 f19 f20 f21 f22 f23 f24 v.

Definition opt_array {A} (inj : A -> list JsVal) (v : option A) : OptVal :=
  match v with
  | Some a => Array (inj a)
  | None => Undefined
  end.

Definition opt_simple (v : option string) : OptVal :=
  match v with
  | Some s => Simple s
  | None => Undefined
  end.

Definition pair_array (p : string * number) : list JsVal := [JStr (fst p); JNum (snd p)].

(** The dynamic property read [o[c]]. *)
Definition get (o : t) (c : Name) : OptVal :=
  match c with
  | Ncursor => opt_array pair_array (cursor o)
  | Nlimit => opt_array pair_array (limit o)
  | Nsparse => opt_array pair_array (sparse o)
  | Nmatches => Array (matches o)
  | Norder => Simple (OrderType_value (order o))
  | Ndistance => opt_simple (distance o)
  | Nwhere => Array (where_ o)
  | NwhereIn => Array (whereIn o)
  | NwhereEval => Array (whereEval o)
  | NwhereEvalSha => Array (whereEvalSha o)
  | Nclip => opt_simple (clip o)
  | Nnofields => opt_simple (nofields o)
  | Nfence => opt_simple (fence o)
  | Ndetect => opt_array (fun p => [JStr (fst p); JStr (snd p)]) (detect o)
  | Ncommands => opt_array (map JStr) (commands o)
  | Noutput => opt_array (fun l => l) (output o)
  | NgetObject => opt_array (fun l => l) (getObject o)
  | Nbounds => opt_array (fun l => l) (bounds o)
  | Ngeojson => opt_array (map JStr) (geojson o)
  | Ntile => opt_array (fun l => l) (tile o)
  | NquadKey => opt_array (fun l => l) (quadKey o)
  | Nhash => opt_array (fun l => l) (hash o)
  | Npoint => opt_array (fun l => l) (point o)
  | Ncircle => opt_array (fun l => l) (circle o)
  | Nroam => opt_array (fun l => l) (roam o)
  end.

End Tile38QueryOpts.

(** ** The class [Tile38Query] *)

(** Functions supplied by the caller and the client handle are opaque: they
    are identified by a name. *)
Definition Fn := nat.
Definition RedisClient := nat.

Inductive JsError :=
| Error (msg : string)
| TypeError (msg : string).

(** What a method hands to the client (and returns from it). *)
Inductive ClientRequest :=
| sendCommand (client : RedisClient) (type : string) (n : number) (args : list JsVal)
| openLiveFence (client : RedisClient) (type : string) (args : list JsVal) (callback : Fn).

Module Tile38Query.

Module O := Tile38QueryOpts.

Record t := mk {
  type : string;
  key : string;
  client : option RedisClient;
  options : O.t
}.

(** The constructor. *)
Definition new (type key : string) (client : option RedisClient) : t :=
  mk type key client O.new.

(** *** Methods as state transformers

    A method runs on [this] and either completes normally with a value or
    throws; the mutations made before a throw stay. *)
Inductive Completion (A : Type) :=
| Normal (a : A)
| Throw (e : JsError).
Arguments Normal {A} a.
Arguments Throw {A} e.

Definition M (A : Type) := t -> Completion A * t.

Definition ret {A} (a : A) : M A := fun this => (Normal a, this).

Definition bind {A B} (m : M A) (k : A -> M B) : M B :=
  fun this =>
    match m this with
    | (Normal a, this') => k a this'
    | (Throw e, this') => (Throw e, this')
    end.

Definition throw {A} (e : JsError) : M A := fun this => (Throw e, this).

Definition this_ : M t := fun this => (Normal this, this).

(** [this.options.f = v], as an update of the option bag. *)
Definition assign (f : O.t -> O.t) : M unit :=
  fun this => (Normal tt, mk (type this) (key this) (client this) (f (options this))).

Notation "x <- m ;; k" := (bind m (fun x => k))
  (at level 61, m at next level, right associativity).
Notation "m ;; k" := (bind m (fun _ => k))
  (at level 61, right associativity).

(** Builder methods return [this]; here they return [tt] and chaining is
    sequencing. *)

Definition cursor (start : number) : M unit :=
  assign (O.set_cursor (Some ("CURSOR", start))).

Definition limit (count : number) : M unit :=
  assign (O.set_limit (Some ("LIMIT", count))).

Definition sparse (spread : number) : M unit :=
  assign (O.set_sparse (Some ("SPARSE", spread))).

Definition match_ (value : string) : M unit :=
  let m := [JStr "MATCH"; JStr value] in
  assign (fun o => O.set_matches (addToArray (Some (O.matches o)) m) o).

Definition order (val : OrderType) : M unit :=
  assign (O.set_order val).

Definition asc : M unit := order Ascending.

Definition desc : M unit := order Descending.

Definition distance : M unit :=
  assign (O.set_distance (Some "DISTANCE")).

Definition where_ (field : string) (criteria : list JsVal) : M unit :=
  let arr := [JStr "WHERE"; JStr field] ++ criteria in
  assign (fun o => O.set_where (addToArray (Some (O.where_ o)) arr) o).

Definition whereIn (field : string) (values : list JsVal) : M unit :=
  let arr := [JStr "WHEREIN"; JStr field; JNum (Z.of_nat (List.length values))] ++ values in
  assign (fun o => O.set_whereIn (addToArray (Some (O.whereIn o)) arr) o).

Definition whereEval (script : string) (args : list JsVal) : M unit :=
  let arr := [JStr "WHEREEVAL"; JStr (dquote ++ script ++ dquote)%string;
              JNum (Z.of_nat (List.length args))] ++ args in
  assign (fun o => O.set_whereEval (addToArray (Some (O.whereEval o)) arr) o).

Definition whereEvalSha (sha : string) (args : list JsVal) : M unit :=
  let arr := [JStr "WHEREEVALSHA"; JStr sha; JNum (Z.of_nat (List.length args))] ++ args in
  assign (fun o => O.set_whereEvalSha (addToArray (Some (O.whereEvalSha o)) arr) o).

Definition clip : M unit :=
  assign (O.set_clip (Some "CLIP")).

Definition nofields : M unit :=
  assign (O.set_nofields (Some "NOFIELDS")).

Definition detect (values : list DetectType) : M unit :=
  assign (O.set_detect (Some ("DETECT", join "," (map DetectType_value values)))).

Definition commands (values : list CommandType) : M unit :=
  assign (O.set_commands (Some ["COMMANDS"; join "," (map CommandType_value values)])).

Definition output (type : OutputType) (precision : option number) : M unit :=
  if (OutputType_value type =? "hashes")%string
  then assign (O.set_output (Some [JStr (OutputType_value type); of_optional precision]))
  else assign (O.set_output (Some [JStr (OutputType_value type)])).

Definition ids : M unit := output Oids None.
Definition count : M unit := output Ocount None.
Definition objects : M unit := output Oobjects None.
Definition points : M unit := output Opoints None.

Definition hashes_message : string :=
  "for the hashes output type, precision must be a integer between 1 and 22 inclusive.".

Definition hashes (precision : option number) : M unit :=
  if js_neq_undefined precision || (js_lt precision 1%Z || js_gt precision 22%Z)
  then throw (Error hashes_message)
  else output Ohashes precision.

Definition getObject (key id : string) : M unit :=
  assign (O.set_getObject (Some [JStr "GET"; JStr key; JStr id])).

Definition bounds (minlat minlon maxlat maxlon : number) : M unit :=
  assign (O.set_bounds (Some [JStr "BOUNDS"; JNum minlat; JNum minlon; JNum maxlat; JNum maxlon])).

Definition stringify_error : JsError :=
  TypeError "Converting circular structure to JSON".

Definition object (geojson : GeoJsonObject) : M unit :=
  match JSON_stringify geojson with
  | Some text => assign (O.set_geojson (Some ["OBJECT"; text]))
  | None => throw stringify_error
  end.

Definition tile (x y z : number) : M unit :=
  assign (O.set_tile (Some [JStr "TILE"; JNum x; JNum y; JNum z])).

Definition quadKey (key : string) : M unit :=
  assign (O.set_quadKey (Some [JStr "QUADKEY"; JStr key])).

Definition hash (geohash : string) : M unit :=
  assign (O.set_hash (Some [JStr "HASH"; JStr geohash])).

Definition circle (lat lon meters : number) : M unit :=
  assign (O.set_circle (Some [JStr "CIRCLE"; JNum lat; JNum lon; JNum meters])).

Definition point (lat lon : number) (meters : option number) : M unit :=
  assign (O.set_point (Some [JStr "POINT"; JNum lat; JNum lon])) ;;
  match meters with
  | Some m => assign (fun o => O.set_point (option_map (fun a => a ++ [JNum m]) (O.point o)) o)
  | None => ret tt
  end.

Definition roam (key pattern : string) (meters : number) : M unit :=
  assign (O.set_roam (Some [JStr "ROAM"; JStr key; JStr pattern; JNum meters])).

(** The order in which [commandArr] walks the option bag (its local
    [commands] array). *)
Definition command_names : list Name :=
  [ Ncursor; Nlimit; Nsparse; Nmatches; Norder; Ndistance; Nwhere; NwhereIn;
    NwhereEval; NwhereEvalSha; Nclip; Nnofields; Nfence; Ndetect; Ncommands;
    Noutput; NgetObject; Nbounds; Ngeojson; Ntile; NquadKey; Nhash; Npoint;
    Ncircle; Nroam ].

(** [cmd.push(i)] *)
Definition push (cmd : list JsVal) (i : JsVal) : list JsVal := cmd ++ [i].

Definition commandArr : M (list JsVal) :=
  this <- this_ ;;
  let cmd := [JStr (key this)] in
  let o := options this in
  ret (fold_left
         (fun cmd c =>
            match O.get o c with
            | Undefined => cmd
            | Array l => fold_left push l cmd
            | Simple s => push cmd (JStr s)
            end)
         command_names cmd).

Definition no_client : JsError :=
  TypeError "Cannot read properties of undefined".

Definition execute : M ClientRequest :=
  this <- this_ ;;
  match client this with
  | None => throw no_client
  | Some c =>
      arr <- commandArr ;;
      ret (sendCommand c (type this) 1%Z arr)
  end.

Definition executeFence (callback : Fn) : M ClientRequest :=
  assign (O.set_fence (Some "FENCE")) ;;
  this <- this_ ;;
  match client this with
  | None => throw no_client
  | Some c =>
      arr <- commandArr ;;
      ret (openLiveFence c (type this) arr callback)
  end.

(** The static factories (no client). *)
Definition intersects (key : string) : t := new "INTERSECTS" key None.
Definition search (key : string) : t := new "SEARCH" key None.
Definition nearby (key : string) : t := new "NEARBY" key None.
Definition scan (key : string) : t := new "SCAN" key None.
Definition within (key : string) : t := new "WITHIN" key None.

End Tile38Query.


(** ** Sequences of calls on one builder

    A caller's straight-line use of a builder: one constructor per method of
    [Tile38Query] that touches the option bag or serializes it. *)

Inductive Call :=
| c_cursor (start : number)
| c_limit (count : number)
| c_sparse (spread : number)
| c_match (value : string)
| c_order (val : OrderType)
| c_asc
| c_desc
| c_distance
| c_where (field : string) (criteria : list JsVal)
| c_whereIn (field : string) (values : list JsVal)
| c_whereEval (script : string) (args : list JsVal)
| c_whereEvalSha (sha : string) (args : list JsVal)
| c_clip
| c_nofields
| c_detect (values : list DetectType)
| c_commands (values : list CommandType)
| c_output (type : OutputType) (precision : option number)
| c_ids
| c_count
| c_objects
| c_points
| c_hashes (precision : option number)
| c_getObject (key id : string)
| c_bounds (minlat minlon maxlat maxlon : number)
| c_object (geojson : GeoJsonObject)
| c_tile (x y z : number)
| c_quadKey (key : string)
| c_hash (geohash : string)
| c_circle (lat lon meters : number)
| c_point (lat lon : number) (meters : option number)
| c_roam (key pattern : string) (meters : number)
| c_commandArr
| c_execute
| c_executeFence (callback : Fn).

Import Tile38Query.

(** Runs one call and drops what it returns. *)
Definition invoke (c : Call) : M unit :=
  match c with
  | c_cursor start => cursor start
  | c_limit n => limit n
  | c_sparse n => sparse n
  | c_match v => match_ v
  | c_order v => order v
  | c_asc => asc
  | c_desc => desc
  | c_distance => distance
  | c_where f cr => where_ f cr
  | c_whereIn f vs => whereIn f vs
  | c_whereEval s args => whereEval s args
  | c_whereEvalSha s args => whereEvalSha s args
  | c_clip => clip
  | c_nofields => nofields
  | c_detect vs => detect vs
  | c_commands vs => commands vs
  | c_output ty p => output ty p
  | c_ids => ids
  | c_count => count
  | c_objects => objects
  | c_points => points
  | c_hashes p => hashes p
  | c_getObject k id => getObject k id
  | c_bounds a b c d => bounds a b c d
  | c_object g => object g
  | c_tile x y z => tile x y z
  | c_quadKey k => quadKey k
  | c_hash g => hash g
  | c_circle lat lon m => circle lat lon m
  | c_point lat lon m => point lat lon m
  | c_roam k p m => roam k p m
  | c_commandArr => bind commandArr (fun _ => ret tt)
  | c_execute => bind execute (fun _ => ret tt)
  | c_executeFence cb => bind (executeFence cb) (fun _ => ret tt)
  end.

(** Runs the calls one after the other; a throw ends the sequence. *)
Fixpoint chain (cs : list Call) : M unit :=
  match cs with
  | [] => ret tt
  | c :: cs' => bind (invoke c) (fun _ => chain cs')
  end.

(** *** The clause kinds, as the specification describes them

    These definitions follow the specification (section 4.1), not the code:
    which clause kind a call addresses, the fragment it contributes, which
    kinds accumulate, and what a kind holds after a sequence of calls. *)

Definition target (c : Call) : option Name :=
  match c with
  | c_cursor _ => Some Ncursor
  | c_limit _ => Some Nlimit
  | c_sparse _ => Some Nsparse
  | c_match _ => Some Nmatches
  | c_order _ | c_asc | c_desc => Some Norder
  | c_distance => Some Ndistance
  | c_where _ _ => Some Nwhere
  | c_whereIn _ _ => Some NwhereIn
  | c_whereEval _ _ => Some NwhereEval
  | c_whereEvalSha _ _ => Some NwhereEvalSha
  | c_clip => Some Nclip
  | c_nofields => Some Nnofields
  | c_detect _ => Some Ndetect
  | c_commands _ => Some Ncommands
  | c_output _ _ | c_ids | c_count | c_objects | c_points | c_hashes _ => Some Noutput
  | c_getObject _ _ => Some NgetObject
  | c_bounds _ _ _ _ => Some Nbounds
  | c_object _ => Some Ngeojson
  | c_tile _ _ _ => Some Ntile
  | c_quadKey _ => Some NquadKey
  | c_hash _ => Some Nhash
  | c_circle _ _ _ => Some Ncircle
  | c_point _ _ _ => Some Npoint
  | c_roam _ _ _ => Some Nroam
  | c_executeFence _ => Some Nfence
  | c_commandArr | c_execute => None
  end.

Definition targets (k : Name) (c : Call) : bool :=
  match target c with
  | Some k' => Name_eqb k' k
  | None => false
  end.

Definition fragment (c : Call) : list JsVal :=
  match c with
  | c_cursor start => [JStr "CURSOR"; JNum start]
  | c_limit n => [JStr "LIMIT"; JNum n]
  | c_sparse n => [JStr "SPARSE"; JNum n]
  | c_match v => [JStr "MATCH"; JStr v]
  | c_order v => [JStr (OrderType_value v)]
  | c_asc => [JStr "ASC"]
  | c_desc => [JStr "DESC"]
  | c_distance => [JStr "DISTANCE"]
  | c_where f cr => JStr "WHERE" :: JStr f :: cr
  | c_whereIn f vs => JStr "WHEREIN" :: JStr f :: JNum (Z.of_nat (List.length vs)) :: vs
  | c_whereEval s args =>
      JStr "WHEREEVAL" :: JStr (dquote ++ s ++ dquote)%string
        :: JNum (Z.of_nat (List.length args)) :: args
  | c_whereEvalSha s args =>
      JStr "WHEREEVALSHA" :: JStr s :: JNum (Z.of_nat (List.length args)) :: args
  | c_clip => [JStr "CLIP"]
  | c_nofields => [JStr "NOFIELDS"]
  | c_detect vs => [JStr "DETECT"; JStr (join "," (map DetectType_value vs))]
  | c_commands vs => [JStr "COMMANDS"; JStr (join "," (map CommandType_value vs))]
  | c_output Ohashes p => [JStr "hashes"; of_optional p]
  | c_output ty _ => [JStr (OutputType_value ty)]
  | c_ids => [JStr "ids"]
  | c_count => [JStr "count"]
  | c_objects => [JStr "objects"]
  | c_points => [JStr "points"]
  | c_hashes p => [JStr "hashes"; of_optional p]
  | c_getObject k id => [JStr "GET"; JStr k; JStr id]
  | c_bounds a b c d => [JStr "BOUNDS"; JNum a; JNum b; JNum c; JNum d]
  | c_object g =>
      match JSON_stringify g with
      | Some text => [JStr "OBJECT"; JStr text]
      | None => []
      end
  | c_tile x y z => [JStr "TILE"; JNum x; JNum y; JNum z]
  | c_quadKey k => [JStr "QUADKEY"; JStr k]
  | c_hash g => [JStr "HASH"; JStr g]
  | c_circle lat lon m => [JStr "CIRCLE"; JNum lat; JNum lon; JNum m]
  | c_point lat lon None => [JStr "POINT"; JNum lat; JNum lon]
  | c_point lat lon (Some m) => [JStr "POINT"; JNum lat; JNum lon; JNum m]
  | c_roam k p m => [JStr "ROAM"; JStr k; JStr p; JNum m]
  | c_executeFence _ => [JStr "FENCE"]
  | c_commandArr | c_execute => []
  end.

Definition repeatable (k : Name) : bool :=
  match k with
  | Nmatches | Nwhere | NwhereIn | NwhereEval | NwhereEvalSha => true
  | _ => false
  end.

(** What a kind holds on a new builder: nothing, except the sort order. *)
Definition initial (k : Name) : list JsVal :=
  match k with
  | Norder => [JStr "ASC"]
  | _ => []
  end.

Fixpoint last_call (cs : list Call) : option Call :=
  match cs with
  | [] => None
  | [c] => Some c
  | _ :: cs' => last_call cs'
  end.

(** The calls of a sequence that address kind [k], in call order. *)
Definition calls_of (k : Name) (cs : list Call) : list Call := filter (targets k) cs.

(** The fragments of kind [k] after the calls [cs] that address it: all of
    them in call order for a repeatable kind, those of the last call
    otherwise. *)
Definition clause (k : Name) (cs : list Call) : list JsVal :=
  if repeatable k then flat_map fragment cs
  else match last_call cs with
       | Some c => fragment c
       | None => initial k
       end.

(** What the property [o[c]] contributes to the serialization. *)
Definition emit (v : OptVal) : list JsVal :=
  match v with
  | Undefined => []
  | Array l => l
  | Simple s => [JStr s]
  end.

(** The argument sequence [commandArr] computes on [q]. *)
Definition arguments (q : t) : list JsVal :=
  JStr (key q) :: flat_map (fun c => emit (O.get (options q) c)) command_names.

(** The builder with its fence clause set, as [executeFence] leaves it. *)
Definition with_fence (q : t) : t :=
  mk (type q) (key q) (client q) (O.set_fence (Some "FENCE") (options q)).

(** The fragments of a kind after further calls, from those it holds. *)
Definition clause_from (init : list JsVal) (k : Name) (cs : list Call) : list JsVal :=
  if repeatable k then init ++ flat_map fragment cs
  else match last_call cs with
       | Some c => fragment c
       | None => init
       end.

(** A kind is present after the calls [cs] when one of them addresses it; the
    sort order is present on every builder. *)
Definition present (cs : list Call) (k : Name) : bool :=
  Name_eqb k Norder || existsb (targets k) cs.

(** ** The class [LiveGeofence]

    The channel owns one [net.Socket] and a [redis-parser] instance; both are
    outside the repository.  Of the socket the model keeps what Node documents:
    [destroy()] closes the connection and lets no further I/O event through,
    and a socket that has been destroyed, by [destroy()] or because the peer
    or the network ended the connection, emits ['close'] once.  Of the parser
    it keeps the interface declared in [types.d.ts]: [execute] turns a chunk
    into replies, errors and fatal errors and hands each to its callback, in
    order.  Functions supplied by the caller are opaque: their invocations
    are recorded in a trace, with the calls made on the socket and the
    logger.

    Scope.  The model follows the socket held in [this.socket]: a second
    [open] replaces it, and the socket it supersedes, which in the source
    stays connected with its listeners, is not followed.  An event is a whole
    turn of the event loop: a handler that calls back into the channel while
    a chunk is being parsed is not modelled.  Replies and errors are texts,
    as the parser callbacks declare them ([reply: string], [err: string]). *)

Module LiveGeofence.

Section WithJSON.

(** [JSON.parse]: the value it returns, or [None] when it throws. *)
Context {Json : Type}.
Variable JSON_parse : string -> option Json.

(** What the parser decodes from a chunk: the argument of [returnReply],
    [returnError] or [returnFatalError]. *)
Inductive Frame :=
| Reply (reply : string)
| ReplyError (err : string)
| FatalError (err : string).

(** The second argument of the handler: [null], the reply as it came, or
    the value [JSON.parse] made of it. *)
Inductive Results :=
| null
| raw (reply : string)
| parsed (j : Json).

Inductive Effect :=
| socket_connect (port : number) (host : string)
| socket_write (data : string)
| socket_destroy
| logger_log (data : string)
| logger_warn (data : string)
| logger_error (data : string)
| callback (f : Fn) (err : option string) (results : Results)
| onCloseCb_call (f : Fn) (has_error : bool).

(** A socket: whether it has been destroyed, whether it has emitted
    ['close'], and what the listeners that [open] registered on it captured. *)
Record Socket := mkSocket {
  destroyed : bool;
  close_emitted : bool;
  password : string;
  command : string;
  handler : Fn
}.

Record t := mk {
  debug : bool;
  socket : option Socket;
  onCloseCb : option Fn
}.

(** The constructor ([debug] defaults to [false]). *)
Definition new (debug : bool) : t := mk debug None None.

Definition crlf : string := String (ascii_of_nat 13) (String (ascii_of_nat 10) EmptyString).

(** [socket.destroy()] *)
Definition destroy (s : Socket) : Socket :=
  mkSocket true (close_emitted s) (password s) (command s) (handler s).

(** [self.socket.destroy()] on the channel. *)
Definition destroy_socket (g : t) : t :=
  mk (debug g) (option_map destroy (socket g)) (onCloseCb g).

(** *** Methods *)

Definition open (host : string) (port : number) (password command : string)
    (callback : Fn) (g : t) : t * list Effect :=
  let socket := mkSocket false false password command callback in
  (mk (debug g) (Some socket) (onCloseCb g), [socket_connect port host]).

Definition onClose (callback : Fn) (g : t) : t * list Effect :=
  (mk (debug g) (socket g) (Some callback), []).

Definition close (g : t) : t * list Effect :=
  match socket g with
  | Some _ => (destroy_socket g, [socket_destroy])
  | None => (g, [])
  end.

(** *** Listeners and parser callbacks registered by [open] *)

(** The callback given to [socket.connect]. *)
Definition connectListener (s : Socket) : list Effect :=
  (if (password s =? "")%string then []
   else [socket_write ("AUTH " ++ password s ++ crlf)%string])
  ++ [socket_write (command s ++ crlf)%string].

(** The ['close'] listener. *)
Definition closeListener (g : t) : list Effect :=
  match onCloseCb g with
  | Some f => [onCloseCb_call f false]
  | None => []
  end.

(** [reply.charAt(0)] *)
Definition charAt0 (s : string) : string :=
  match s with
  | String c _ => String c EmptyString
  | EmptyString => EmptyString
  end.

Definition returnReply (callback_ : Fn) (reply : string) (g : t) : t * list Effect :=
  let logged := if debug g then [logger_log reply] else [] in
  if (reply =? "OK")%string then (g, logged)
  else
    let f := charAt0 reply in
    if (f =? "{")%string || (f =? "[")%string then
      match JSON_parse reply with
      | Some response => (g, logged ++ [callback callback_ None (parsed response)])
      | None =>
          (g, logged
                ++ [logger_warn ("Unable to parse server response: " ++ reply)%string;
                    callback callback_ None (raw reply)])
      end
    else (g, logged ++ [callback callback_ None (raw reply)]).

Definition returnError (callback_ : Fn) (err : string) (g : t) : t * list Effect :=
  (g, [logger_error ("live socket error: " ++ err)%string;
       callback callback_ (Some err) null]).

Definition returnFatalError (callback_ : Fn) (err : string) (g : t) : t * list Effect :=
  (destroy_socket g,
   [logger_error ("fatal live socket error: " ++ err)%string;
    socket_destroy;
    callback callback_ (Some err) null]).

(** [parser.execute(buffer)], on the frames the buffer decodes to. *)
Fixpoint execute (callback_ : Fn) (frames : list Frame) (g : t) : t * list Effect :=
  match frames with
  | [] => (g, [])
  | frame :: frames' =>
      let '(g1, tr1) :=
        match frame with
        | Reply reply => returnReply callback_ reply g
        | ReplyError err => returnError callback_ err g
        | FatalError err => returnFatalError callback_ err g
        end in
      let '(g2, tr2) := execute callback_ frames' g1 in
      (g2, tr1 ++ tr2)
  end.

(** *** The channel driven by its caller and by the socket *)

Inductive Event :=
| call_open (host : string) (port : number) (password command : string) (callback : Fn)
| call_onClose (callback : Fn)
| call_close
| on_connect
| on_data (frames : list Frame)
| peer_closed
| on_close.

Definition step (e : Event) (g : t) : t * list Effect :=
  match e with
  | call_open host port password command callback_ =>
      open host port password command callback_ g
  | call_onClose callback_ => onClose callback_ g
  | call_close => close g
  | on_connect =>
      match socket g with
      | Some s => if destroyed s then (g, []) else (g, connectListener s)
      | None => (g, [])
      end
  | on_data frames =>
      match socket g with
      | Some s => if destroyed s then (g, []) else execute (handler s) frames g
      | None => (g, [])
      end
  | peer_closed =>
      match socket g with
      | Some s => if destroyed s then (g, []) else (destroy_socket g, [])
      | None => (g, [])
      end
  | on_close =>
      match socket g with
      | Some s =>
          if destroyed s && negb (close_emitted s)
          then (mk (debug g)
                   (Some (mkSocket true true (password s) (command s) (handler s)))
                   (onCloseCb g),
                closeListener g)
          else (g, [])
      | None => (g, [])
      end
  end.

Fixpoint run (events : list Event) (g : t) : t * list Effect :=
  match events with
  | [] => (g, [])
  | e :: events' =>
      let '(g1, tr1) := step e g in
      let '(g2, tr2) := run events' g1 in
      (g2, tr1 ++ tr2)
  end.

(** *** Reading a trace *)

(** The invocations of the handler, in order. *)
Fixpoint handler_calls (tr : list Effect) : list (Fn * option string * Results) :=
  match tr with
  | [] => []
  | callback f err results :: tr' => (f, err, results) :: handler_calls tr'
  | _ :: tr' => handler_calls tr'
  end.

(** The invocations of the close observer, in order. *)
Fixpoint observer_calls (tr : list Effect) : list (Fn * bool) :=
  match tr with
  | [] => []
  | onCloseCb_call f has_error :: tr' => (f, has_error) :: observer_calls tr'
  | _ :: tr' => observer_calls tr'
  end.

(** The part of a trace before the first [socket.destroy()], and the part
    after it. *)
Fixpoint before_destroy (tr : list Effect) : list Effect :=
  match tr with
  | [] => []
  | socket_destroy :: _ => []
  | e :: tr' => e :: before_destroy tr'
  end.

Fixpoint after_destroy (tr : list Effect) : list Effect :=
  match tr with
  | [] => []
  | socket_destroy :: tr' => tr'
  | _ :: tr' => after_destroy tr'
  end.

End WithJSON.

(** A frame other than a fatal error. *)
Definition nonfatal (f : Frame) : Prop :=
  match f with
  | FatalError _ => False
  | _ => True
  end.

End LiveGeofence.

(** ** Command strings *)

Section CommandStr.

(** How JavaScript prints a number ([Number.prototype.toString]). *)
Variable Number_toString : number -> string.



End CommandStr.

(** ** GeoJSON points

    Coordinates are floating-point numbers.  The constructor only compares
    them with -180 and 180, so a finite number is carried as the rational it
    denotes, beside the two infinities and NaN. *)

From Stdlib Require QArith.

Module GeoJson.

Inductive JsNumber :=
| Finite (q : QArith_base.Q)
| PosInfinity
| NegInfinity
| NaN.

(** [a < b] on numbers: false as soon as one side is NaN. *)
Definition lt (a b : JsNumber) : bool :=
  match a, b with
  | NaN, _ | _, NaN => false
  | Finite x, Finite y => negb (QArith_base.Qle_bool y x)
  | NegInfinity, NegInfinity => false
  | NegInfinity, _ => true
  | _, NegInfinity => false
  | PosInfinity, _ => false
  | Finite _, PosInfinity => true
  end.

(** [a > b] *)
Definition gt (a b : JsNumber) : bool := lt b a.

(** The bounds [-180.0] and [180.0]. *)
Definition minus_180 : QArith_base.Q := QArith_base.Qmake (-180) 1.
Definition plus_180 : QArith_base.Q := QArith_base.Qmake 180 1.

Inductive GeoJsonObjectType :=
| Point | Feature | FeatureCollection | Polygon | MultiPolygon | MultiPoint
| LineString | MultiLineString.

Record GeoJsonPoint := mkPoint {
  type : GeoJsonObjectType;
  coordinates : JsNumber * JsNumber;
  properties : JsVal
}.

Section Constructor.

(** The text a template literal makes of a number. *)
Variable Number_toString : JsNumber -> string.

Definition longitude_message (longitude : JsNumber) : string :=
  ("longitude value out of range [-180.0, 180]: " ++ Number_toString longitude)%string.

Definition latitude_message (latitude : JsNumber) : string :=
  ("latitude value out of range [-180.0, 180]: " ++ Number_toString latitude)%string.

(** [new GeoJsonPoint(longitude, latitude, properties)]; a missing
    [properties] is [JUndefined]. *)
Definition new (longitude latitude : JsNumber) (properties : JsVal)
  : Tile38Query.Completion GeoJsonPoint :=
  if lt longitude (Finite minus_180) || gt longitude (Finite plus_180)
  then Tile38Query.Throw (Error (longitude_message longitude))
  else if lt latitude (Finite minus_180) || gt latitude (Finite plus_180)
  then Tile38Query.Throw (Error (latitude_message latitude))
  else Tile38Query.Normal (mkPoint Point (longitude, latitude) properties).

End Constructor.

(** The numbers neither comparison of the constructor rejects. *)
Definition accepted (x : JsNumber) : Prop :=
  match x with
  | Finite q => QArith_base.Qle minus_180 q /\ QArith_base.Qle q plus_180
  | NaN => True
  | PosInfinity | NegInfinity => False
  end.

End GeoJson.

(** ** Reading the trace of a channel, continued *)

(** The data written to the socket, in order. *)
Fixpoint socket_writes {Json : Type} (tr : list (@LiveGeofence.Effect Json)) : list string :=
  match tr with
  | [] => []
  | LiveGeofence.socket_write data :: tr' => data :: socket_writes tr'
  | _ :: tr' => socket_writes tr'
  end.

Definition is_open_call (e : LiveGeofence.Event) : bool :=
  match e with
  | LiveGeofence.call_open _ _ _ _ _ => true
  | _ => false
  end.

(** The channel has no socket or a destroyed one. *)
Definition inert (g : LiveGeofence.t) : Prop :=
  match LiveGeofence.socket g with
  | Some s => LiveGeofence.destroyed s = true
  | None => True
  end.

(** What the handler is told of a frame, if anything: nothing of the reply
    OK; of any other reply, the value [JSON.parse] makes of it when it starts
    with a brace or a bracket and parses, the text itself otherwise; of an
    error, its message. *)
Definition forwarded {Json : Type} (JSON_parse : string -> option Json)
    (handler : Fn) (fr : LiveGeofence.Frame)
  : list (Fn * option string * @LiveGeofence.Results Json) :=
  match fr with
  | LiveGeofence.Reply reply =>
      if (reply =? "OK")%string then []
      else if (LiveGeofence.charAt0 reply =? "{")%string
              || (LiveGeofence.charAt0 reply =? "[")%string
      then match JSON_parse reply with
           | Some j => [(handler, None, LiveGeofence.parsed j)]
           | None => [(handler, None, LiveGeofence.raw reply)]
           end
      else [(handler, None, LiveGeofence.raw reply)]
  | LiveGeofence.ReplyError err => [(handler, Some err, LiveGeofence.null)]
  | LiveGeofence.FatalError err => [(handler, Some err, LiveGeofence.null)]
  end.


(** What the handler can be told: a result without an error, or an error
    without a result. *)
Definition error_xor_result {Json : Type}
    (call : Fn * option string * @LiveGeofence.Results Json) : Prop :=
  match call with
  | (_, None, LiveGeofence.raw _) | (_, None, LiveGeofence.parsed _) | (_, Some _, LiveGeofence.null) => True
  | _ => False
  end.

(** The event is a call of [open] with the handler [f]. *)
Definition opens_with (f : Fn) (e : LiveGeofence.Event) : Prop :=
  match e with
  | LiveGeofence.call_open _ _ _ _ cb => cb = f
  | _ => False
  end.

(** The event is a call of [open] with this password and this command. *)
Definition opens_as (password command : string) (e : LiveGeofence.Event) : Prop :=
  match e with
  | LiveGeofence.call_open _ _ p c _ => p = password /\ c = command
  | _ => False
  end.

(** The password and the command the listeners of a socket captured. *)
Definition credentials (s : LiveGeofence.Socket) : string * string :=
  (LiveGeofence.password s, LiveGeofence.command s).

(** The two frames a socket opened with a password and a command may carry. *)
Definition frame_of (pc : string * string) (w : string) : Prop :=
  w = (snd pc ++ LiveGeofence.crlf)%string
  \/ (fst pc <> "" /\ w = ("AUTH " ++ fst pc ++ LiveGeofence.crlf)%string).

Local Open Scope Z_scope.

(** ** Properties of the builder *)

Lemma fold_left_push (l cmd : list JsVal) : fold_left push l cmd = cmd ++ l.
Proof.
  revert cmd; induction l as [|i l IH]; intros cmd; simpl.
  - now rewrite app_nil_r.
  - rewrite IH. unfold push. now rewrite <- app_assoc.
Qed.

Lemma commandArr_loop (o : O.t) (names : list Name) (cmd : list JsVal) :
  fold_left
    (fun cmd c =>
       match O.get o c with
       | Undefined => cmd
       | Array l => fold_left push l cmd
       | Simple s => push cmd (JStr s)
       end) names cmd
  = cmd ++ flat_map (fun c => emit (O.get o c)) names.
Proof.
  revert cmd; induction names as [|c names IH]; intros cmd; simpl.
  - now rewrite app_nil_r.
  - rewrite IH. destruct (O.get o c); simpl.
    + reflexivity.
    + now rewrite fold_left_push, <- app_assoc.
    + unfold push. now rewrite <- app_assoc.
Qed.

(** [commandArr] returns the key followed by what each property contributes,
    in the order of [command_names], and leaves [this] as it was. *)
Lemma commandArr_eq (q : t) :
  commandArr q
  = (Normal (JStr (key q) :: flat_map (fun c => emit (O.get (options q) c)) command_names), q).
Proof.
  unfold commandArr, bind, this_, ret. now rewrite commandArr_loop.
Qed.

(** Unfolds a builder method run on a builder given by its fields, without
    touching the values it stores. *)
Ltac unfold_methods_in H :=
  cbv beta iota zeta delta
    [invoke cursor limit sparse match_ order asc desc distance where_ whereIn
     whereEval whereEvalSha clip nofields detect commands output ids count
     objects points hashes getObject bounds object tile quadKey hash circle
     point roam assign bind ret throw this_ type key client options
     JSON_stringify] in H.

Lemma execute_eq (q : t) :
  execute q
  = (match client q with
     | Some c => Normal (sendCommand c (type q) 1%Z (arguments q))
     | None => Throw no_client
     end, q).
Proof.
  unfold execute, bind, this_. destruct (client q); [|reflexivity].
  now rewrite commandArr_eq.
Qed.

Lemma executeFence_eq (cb : Fn) (q : t) :
  executeFence cb q
  = (match client q with
     | Some c => Normal (openLiveFence c (type q) (arguments (with_fence q)) cb)
     | None => Throw no_client
     end, with_fence q).
Proof.
  unfold executeFence, bind, this_, assign. fold (with_fence q).
  change (client (with_fence q)) with (client q).
  destruct (client q); [|reflexivity].
  now rewrite commandArr_eq.
Qed.

(** What the three serializing calls do to [this]. *)
Lemma invoke_serializing (c : Call) (q : t) :
  target c = None \/ target c = Some Nfence ->
  exists r, invoke c q = (r, if targets Nfence c then with_fence q else q).
Proof.
  intros H. destruct c; simpl in H; destruct H as [H|H]; try discriminate H.
  - eexists. unfold invoke, bind. rewrite commandArr_eq. reflexivity.
  - unfold invoke, bind. rewrite execute_eq.
    destruct (client q); eexists; reflexivity.
  - unfold invoke, bind. rewrite executeFence_eq.
    destruct (client q); eexists; reflexivity.
Qed.

Lemma invoke_frame (c : Call) (q q' : t) (r : Completion unit) :
  invoke c q = (r, q') ->
  type q' = type q /\ key q' = key q /\ client q' = client q.
Proof.
  intros H.
  destruct (target c) as [k|] eqn:Hk.
  2:{ destruct (invoke_serializing c q (or_introl Hk)) as [r' E].
      rewrite E in H. injection H as _ <-. unfold targets. rewrite Hk. auto. }
  destruct (Name_eq_dec k Nfence) as [->|Hne].
  { destruct (invoke_serializing c q (or_intror Hk)) as [r' E].
    rewrite E in H. injection H as _ <-. unfold targets. rewrite Hk. simpl. auto. }
  destruct q as [ty ky cl o].
  destruct c; try discriminate Hk;
    try (simpl in Hk; congruence);
    try (unfold_methods_in H; injection H as _ <-; now auto).
  - destruct type0; unfold_methods_in H; simpl in H; injection H as _ <-; now auto.
  - destruct precision; unfold_methods_in H; simpl in H; injection H as _ <-; now auto.
  - destruct geojson; unfold_methods_in H; injection H as _ <-; now auto.
  - destruct meters; unfold_methods_in H; injection H as _ <-; now auto.
Qed.

(** One call changes only the kind it addresses: a repeatable kind gets the
    call's fragment appended, any other kind is replaced by it. *)
Lemma invoke_emit (c : Call) (q q' : t) (k : Name) :
  invoke c q = (Normal tt, q') ->
  emit (O.get (options q') k)
  = if targets k c
    then (if repeatable k then emit (O.get (options q) k) ++ fragment c else fragment c)
    else emit (O.get (options q) k).
Proof.
  intros H.
  destruct (target c) as [k'|] eqn:Hk.
  2:{ destruct (invoke_serializing c q (or_introl Hk)) as [r' E].
      rewrite E in H. injection H as _ <-. unfold targets. now rewrite Hk. }
  destruct (Name_eq_dec k' Nfence) as [->|Hne].
  { destruct (invoke_serializing c q (or_intror Hk)) as [r' E].
    rewrite E in H. injection H as _ <-.
    unfold targets at 2. rewrite Hk. simpl Name_eqb. cbv iota.
    destruct c; try discriminate Hk.
    destruct q as [ty ky cl []]; destruct k; reflexivity. }
  destruct q as [ty ky cl []].
  destruct c; try discriminate Hk; try (simpl in Hk; congruence).
  all: try (unfold_methods_in H; injection H as <-; destruct k; reflexivity).
  - destruct type0; unfold_methods_in H; simpl in H; injection H as <-;
      destruct k; reflexivity.
  - destruct precision; unfold_methods_in H; simpl in H; [discriminate H|].
    injection H as <-; destruct k; reflexivity.
  - match goal with g : GeoJsonObject |- _ => destruct g end;
      unfold_methods_in H; [|discriminate H].
    injection H as <-; destruct k; reflexivity.
  - destruct meters; unfold_methods_in H; injection H as <-; destruct k; reflexivity.
Qed.

Lemma chain_frame (cs : list Call) (q q' : t) (r : Completion unit) :
  chain cs q = (r, q') ->
  type q' = type q /\ key q' = key q /\ client q' = client q.
Proof.
  revert q; induction cs as [|c cs IH]; intros q H; simpl in H.
  - injection H as _ <-. auto.
  - unfold bind in H. destruct (invoke c q) as [[[]|e] q1] eqn:E.
    + apply invoke_frame in E. apply IH in H.
      destruct E as (E1 & E2 & E3), H as (H1 & H2 & H3).
      repeat split; congruence.
    + injection H as _ <-. now apply invoke_frame in E.
Qed.

Lemma last_call_cons (c : Call) (cs : list Call) :
  exists c', last_call (c :: cs) = Some c'.
Proof.
  revert c; induction cs as [|d cs IH]; intros c.
  - now exists c.
  - destruct (IH d) as [c' E]. exists c'. exact E.
Qed.

Lemma clause_from_cons (init : list JsVal) (k : Name) (c : Call) (cs : list Call) :
  clause_from (if repeatable k then init ++ fragment c else fragment c) k cs
  = clause_from init k (c :: cs).
Proof.
  unfold clause_from. destruct (repeatable k).
  - simpl. now rewrite app_assoc.
  - destruct cs as [|d cs]; [reflexivity|].
    destruct (last_call_cons d cs) as [c' E].
    change (last_call (c :: d :: cs)) with (last_call (d :: cs)).
    now rewrite E.
Qed.

Lemma chain_emit (cs : list Call) (q q' : t) (k : Name) :
  chain cs q = (Normal tt, q') ->
  emit (O.get (options q') k) = clause_from (emit (O.get (options q) k)) k (calls_of k cs).
Proof.
  revert q; induction cs as [|c cs IH]; intros q H; simpl in H.
  - injection H as <-. unfold clause_from. simpl.
    destruct (repeatable k); [now rewrite app_nil_r | reflexivity].
  - unfold bind in H. destruct (invoke c q) as [[[]|e] q1] eqn:E; [|discriminate H].
    rewrite (IH _ H), (invoke_emit _ _ _ k E).
    unfold calls_of. simpl filter. destruct (targets k c).
    + apply clause_from_cons.
    + reflexivity.
Qed.

Lemma clause_from_initial (k : Name) (cs : list Call) :
  clause_from (emit (O.get O.new k)) k cs = clause k cs.
Proof. destruct k; reflexivity. Qed.

Lemma chain_new_emit (ty ky : string) (cl : option RedisClient) (cs : list Call) (q : t) (k : Name) :
  chain cs (new ty ky cl) = (Normal tt, q) ->
  emit (O.get (options q) k) = clause k (calls_of k cs).
Proof.
  intros H. rewrite (chain_emit _ _ _ k H). apply clause_from_initial.
Qed.

Lemma commandArr_chain
  (ty ky : string) (cl : option RedisClient) (cs : list Call) (q : t) :
  chain cs (new ty ky cl) = (Normal tt, q) ->
  commandArr q
  = (Normal (JStr ky :: flat_map (fun k => clause k (calls_of k cs)) command_names), q).
Proof.
  intros H. rewrite commandArr_eq.
  destruct (chain_frame _ _ _ _ H) as (_ & Hkey & _). rewrite Hkey.
  change (key (new ty ky cl)) with ky.
  f_equal. f_equal. f_equal.
  apply flat_map_ext. intros k. exact (chain_new_emit _ _ _ _ _ k H).
Qed.

(** C1.  After any sequence of builder calls on a new builder, [commandArr]
    returns the key followed by the fragments of each clause kind at the fixed
    position of that kind: cursor, limit, sparse, match, order, distance,
    where, where-in, where-eval, where-eval-sha, clip, no-fields, fence,
    detect, commands, output, get-object, bounds, geometry object, tile,
    quad-key, hash, point, circle, roam.  What stands at a position depends
    only on the calls that address that kind ([calls_of]), not on how they
    were interleaved with the others, and for a repeatable kind it is the
    fragments of those calls in call order ([clause]). *)
Theorem commandArr_fixed_positions
  (ty ky : string) (cl : option RedisClient) (cs : list Call) (q : t) :
  chain cs (new ty ky cl) = (Normal tt, q) ->
  commandArr q
  = (Normal
       (JStr ky
          :: flat_map (fun k => clause k (calls_of k cs))
               [ Ncursor; Nlimit; Nsparse; Nmatches; Norder; Ndistance; Nwhere;
                 NwhereIn; NwhereEval; NwhereEvalSha; Nclip; Nnofields; Nfence;
                 Ndetect; Ncommands; Noutput; NgetObject; Nbounds; Ngeojson;
                 Ntile; NquadKey; Nhash; Npoint; Ncircle; Nroam ]),
     q).
Proof.
  intros H. rewrite commandArr_eq.
  destruct (chain_frame _ _ _ _ H) as (_ & Hkey & _). rewrite Hkey.
  change (key (new ty ky cl)) with ky.
  do 3 f_equal.
  apply flat_map_ext. intros k.
  rewrite (chain_emit _ _ _ k H). apply clause_from_initial.
Qed.

Lemma commandArr_fixed_positions_witness :
  exists q,
    chain [c_match "a*"; c_limit 5; c_desc; c_match "b*"; c_cursor 0; c_asc]
      (scan "fleet") = (Normal tt, q)
    /\ fst (commandArr q)
       = Normal [JStr "fleet"; JStr "CURSOR"; JNum 0; JStr "LIMIT"; JNum 5;
                 JStr "MATCH"; JStr "a*"; JStr "MATCH"; JStr "b*"; JStr "ASC"].
Proof.
  eexists. split.
  - reflexivity.
  - rewrite (commandArr_fixed_positions "SCAN" "fleet" None
               [c_match "a*"; c_limit 5; c_desc; c_match "b*"; c_cursor 0; c_asc]).
    + reflexivity.
    + reflexivity.
Defined.

(** Two sequences of calls that agree on the calls addressing each kind
    serialize alike, however each interleaves the kinds. *)
Lemma commandArr_interleaving
  (ty ky : string) (cl : option RedisClient) (cs1 cs2 : list Call) (q1 q2 : t) :
  chain cs1 (new ty ky cl) = (Normal tt, q1) ->
  chain cs2 (new ty ky cl) = (Normal tt, q2) ->
  (forall k, calls_of k cs1 = calls_of k cs2) ->
  fst (commandArr q1) = fst (commandArr q2).
Proof.
  intros H1 H2 E.
  rewrite (commandArr_chain _ _ _ _ _ H1), (commandArr_chain _ _ _ _ _ H2).
  cbn [fst]. do 2 f_equal. apply flat_map_ext. intros k. now rewrite E.
Qed.

(** C2.  [hashes] throws for every number it is given, the precisions 1 to 22
    included: the first disjunct of its guard, [precision != undefined],
    holds for each of them. *)
Theorem hashes_throws_for_every_number (precision : number) (q : t) :
  hashes (Some precision) q = (Throw (Error hashes_message), q).
Proof.
  unfold hashes. change (js_neq_undefined (Some precision)) with true.
  rewrite orb_true_l. reflexivity.
Qed.

(** The one argument [hashes] accepts is [undefined], which it stores as the
    precision. *)
Lemma hashes_undefined (q : t) :
  hashes None q
  = (Normal tt,
     mk (type q) (key q) (client q)
        (O.set_output (Some [JStr "hashes"; JUndefined]) (options q))).
Proof. reflexivity. Qed.

Lemma hashes_boundaries :
  fst (hashes (Some 0) (scan "fleet")) = Throw (Error hashes_message)
  /\ fst (hashes (Some 1) (scan "fleet")) = Throw (Error hashes_message)
  /\ fst (hashes (Some 22) (scan "fleet")) = Throw (Error hashes_message)
  /\ fst (hashes (Some 23) (scan "fleet")) = Throw (Error hashes_message).
Proof. repeat split. Qed.

(** C5.  [commandArr] returns normally, leaves the builder as it was, and a
    second call right after the first returns the same sequence. *)
Theorem commandArr_idempotent (q : t) :
  exists arr,
    commandArr q = (Normal arr, q)
    /\ (a <- commandArr ;; b <- commandArr ;; ret (a, b)) q = (Normal (arr, arr), q).
Proof.
  exists (arguments q). split.
  - apply commandArr_eq.
  - unfold bind. rewrite !commandArr_eq. reflexivity.
Qed.

Lemma flat_map_filter {A B} (f : A -> list B) (p : A -> bool) (l : list A) :
  (forall a, p a = false -> f a = []) ->
  flat_map f l = flat_map f (filter p l).
Proof.
  intros Hp. induction l as [|a l IH]; simpl; [reflexivity|].
  destruct (p a) eqn:E; simpl.
  - now rewrite IH.
  - now rewrite (Hp a E), IH.
Qed.

Lemma filter_none {A} (p : A -> bool) (l : list A) :
  existsb p l = false -> filter p l = [].
Proof.
  induction l as [|a l IH]; simpl; [reflexivity|].
  destruct (p a); simpl; [discriminate | exact IH].
Qed.

Lemma clause_absent (cs : list Call) (k : Name) :
  present cs k = false -> clause k (calls_of k cs) = [].
Proof.
  unfold present. intros H. apply orb_false_elim in H as [Hk Hc].
  unfold calls_of. rewrite (filter_none _ _ Hc).
  destruct k; try reflexivity. discriminate Hk.
Qed.

(** C6, as the code has it.  After any sequence of calls on a new builder, a
    kind other than the sort order that no call addressed contributes nothing
    to the serialization: the sequence is the key followed by the fragments of
    the kinds that are present, and nothing else.  The sort order is
    initialised to ascending by the constructor, so a new builder serializes
    to its key followed by ASC. *)
Theorem absent_clauses_contribute_nothing
  (ty ky : string) (cl : option RedisClient) (cs : list Call) (q : t) :
  chain cs (new ty ky cl) = (Normal tt, q) ->
  (forall k, k <> Norder -> calls_of k cs = [] -> O.get (options q) k = Undefined
                                               \/ O.get (options q) k = Array [])
  /\ commandArr q
     = (Normal (JStr ky :: flat_map (fun k => clause k (calls_of k cs))
                             (filter (present cs) command_names)), q)
  /\ commandArr (new ty ky cl) = (Normal [JStr ky; JStr "ASC"], new ty ky cl).
Proof.
  intros H. split; [|split].
  - intros k Hk Hc. pose proof (chain_new_emit _ _ _ _ _ k H) as E.
    assert (C : clause k [] = []) by (destruct k; try reflexivity; congruence).
    rewrite Hc, C in E.
    destruct (O.get (options q) k) as [|l|s]; simpl in E.
    + now left.
    + right. now subst.
    + discriminate E.
  - rewrite (commandArr_chain _ _ _ _ _ H). f_equal. f_equal. f_equal.
    apply flat_map_filter. intros k. apply clause_absent.
  - reflexivity.
Qed.

Lemma absent_clauses_contribute_nothing_witness :
  exists q,
    chain [c_limit 10; c_nofields] (nearby "fleet") = (Normal tt, q)
    /\ fst (commandArr q)
       = Normal [JStr "fleet"; JStr "LIMIT"; JNum 10; JStr "ASC"; JStr "NOFIELDS"]
    /\ commandArr (nearby "fleet") = (Normal [JStr "fleet"; JStr "ASC"], nearby "fleet").
Proof.
  eexists. split; [reflexivity|].
  destruct (absent_clauses_contribute_nothing "NEARBY" "fleet" None
              [c_limit 10; c_nofields] _ eq_refl) as (_ & E & F).
  split.
  - exact (f_equal fst E).
  - exact F.
Defined.

(** A new builder does not serialize to its key alone: the sort order the
    constructor sets follows the key. *)
Lemma new_builder_not_key_alone :
  fst (commandArr (scan "fleet")) <> Normal [JStr "fleet"].
Proof.
  rewrite commandArr_eq. simpl. intros E. discriminate E.
Qed.

(** C7, as the code has it.  For each kind that is not repeatable, calling
    its method twice is the same as calling it once with the arguments of the
    second call, and the clause then holds the value of the second call and
    nothing of the first.  For the geometry object this is so when
    [JSON.stringify] accepts the argument of the second call: the builder is
    then the one the second call alone leaves, whether the first call
    returned or threw, and the two calls in sequence equal the second alone
    when the first returned. *)
Theorem last_call_wins (q : t) :
  (forall x y,
      (order x ;; order y) q = order y q
      /\ O.get (options (snd ((order x ;; order y) q))) Norder
         = Simple (OrderType_value y))
  /\ ((distance ;; distance) q = distance q
      /\ O.get (options (snd ((distance ;; distance) q))) Ndistance = Simple "DISTANCE")
  /\ ((clip ;; clip) q = clip q
      /\ O.get (options (snd ((clip ;; clip) q))) Nclip = Simple "CLIP")
  /\ ((nofields ;; nofields) q = nofields q
      /\ O.get (options (snd ((nofields ;; nofields) q))) Nnofields = Simple "NOFIELDS")
  /\ (forall k1 p1 k2 p2,
         (output k1 p1 ;; output k2 p2) q = output k2 p2 q
         /\ O.get (options (snd ((output k1 p1 ;; output k2 p2) q))) Noutput
            = Array (match k2 with
                     | Ohashes => [JStr "hashes"; of_optional p2]
                     | _ => [JStr (OutputType_value k2)]
                     end))
  /\ (forall a b c d a' b' c' d',
         (bounds a b c d ;; bounds a' b' c' d') q = bounds a' b' c' d' q
         /\ O.get (options (snd ((bounds a b c d ;; bounds a' b' c' d') q))) Nbounds
            = Array [JStr "BOUNDS"; JNum a'; JNum b'; JNum c'; JNum d'])
  /\ (forall x y text,
         JSON_stringify y = Some text ->
         snd (object y (snd (object x q))) = snd (object y q)
         /\ O.get (options (snd (object y (snd (object x q))))) Ngeojson
            = Array [JStr "OBJECT"; JStr text]
         /\ (JSON_stringify x <> None -> (object x ;; object y) q = object y q))
  /\ (forall x y z x' y' z',
         (tile x y z ;; tile x' y' z') q = tile x' y' z' q
         /\ O.get (options (snd ((tile x y z ;; tile x' y' z') q))) Ntile
            = Array [JStr "TILE"; JNum x'; JNum y'; JNum z'])
  /\ (forall k k',
         (quadKey k ;; quadKey k') q = quadKey k' q
         /\ O.get (options (snd ((quadKey k ;; quadKey k') q))) NquadKey
            = Array [JStr "QUADKEY"; JStr k'])
  /\ (forall g g',
         (hash g ;; hash g') q = hash g' q
         /\ O.get (options (snd ((hash g ;; hash g') q))) Nhash
            = Array [JStr "HASH"; JStr g'])
  /\ (forall lat lon m lat' lon' m',
         (point lat lon m ;; point lat' lon' m') q = point lat' lon' m' q
         /\ O.get (options (snd ((point lat lon m ;; point lat' lon' m') q))) Npoint
            = Array (match m' with
                     | Some meters => [JStr "POINT"; JNum lat'; JNum lon'; JNum meters]
                     | None => [JStr "POINT"; JNum lat'; JNum lon']
                     end))
  /\ (forall lat lon m lat' lon' m',
         (circle lat lon m ;; circle lat' lon' m') q = circle lat' lon' m' q
         /\ O.get (options (snd ((circle lat lon m ;; circle lat' lon' m') q))) Ncircle
            = Array [JStr "CIRCLE"; JNum lat'; JNum lon'; JNum m'])
  /\ (forall k p m k' p' m',
         (roam k p m ;; roam k' p' m') q = roam k' p' m' q
         /\ O.get (options (snd ((roam k p m ;; roam k' p' m') q))) Nroam
            = Array [JStr "ROAM"; JStr k'; JStr p'; JNum m'])
  /\ (forall cb cb',
         (executeFence cb ;; executeFence cb') q = executeFence cb' q
         /\ O.get (options (snd ((executeFence cb ;; executeFence cb') q))) Nfence
            = Simple "FENCE").
Proof.
  destruct q as [ty ky cl o] eqn:Q.
  repeat match goal with
         | |- _ /\ _ => split
         | |- forall _, _ => intro
         end.
  all: first
    [ solve [destruct o; reflexivity]
    | solve [destruct k1, k2, o; reflexivity]
    | solve [destruct m, m', o; reflexivity]
    | solve [unfold bind; rewrite !executeFence_eq; destruct cl, o; reflexivity]
    | solve [destruct x, y, o; cbn [JSON_stringify] in *;
             try discriminate; try (exfalso; congruence);
             repeat match goal with
                    | H : Some _ = Some _ |- _ => injection H as <-
                    end;
             reflexivity] ].
Qed.

Lemma last_call_wins_witness :
  let q := scan "fleet" in
  snd (object (serializable "{}") (snd (object unserializable q)))
  = snd (object (serializable "{}") q)
  /\ O.get (options (snd ((bounds 1 2 3 4 ;; bounds 5 6 7 8) q))) Nbounds
     = Array [JStr "BOUNDS"; JNum 5; JNum 6; JNum 7; JNum 8].
Proof.
  cbv zeta.
  destruct (last_call_wins (scan "fleet")) as (_ & _ & _ & _ & _ & B & J & _).
  split.
  - exact (proj1 (J unserializable (serializable "{}") "{}" eq_refl)).
  - exact (proj2 (B 1 2 3 4 5 6 7 8)).
Defined.

(** The equation fails for the geometry object when [JSON.stringify] rejects
    one of the two arguments: a second call that throws leaves the value of
    the first, and a first call that throws ends the sequence. *)
Lemma object_call_may_throw :
  (object (serializable "{}") ;; object unserializable) (scan "fleet")
  <> object unserializable (scan "fleet")
  /\ (object unserializable ;; object (serializable "{}")) (scan "fleet")
     <> object (serializable "{}") (scan "fleet").
Proof. split; intros E; discriminate E. Qed.

(** C8.  [whereIn field values] appends to the where-in clause the fragment
    WHEREIN, the field, the number of values, then the values; with three
    values on a new builder the clause is exactly
    [WHEREIN field 3 a b c]. *)
Theorem whereIn_count (field : string) (values : list JsVal) (q : t) :
  whereIn field values q
  = (Normal tt,
     mk (type q) (key q) (client q)
        (O.set_whereIn
           (O.whereIn (options q)
              ++ JStr "WHEREIN" :: JStr field
                   :: JNum (Z.of_nat (List.length values)) :: values)
           (options q)))
  /\ (forall ty ky cl a b c,
         O.get (options (snd (whereIn field [a; b; c] (new ty ky cl)))) NwhereIn
         = Array [JStr "WHEREIN"; JStr field; JNum 3; a; b; c]).
Proof.
  split.
  - unfold whereIn, assign, addToArray. reflexivity.
  - intros ty ky cl a b c. reflexivity.
Qed.

Lemma invoke_keeps_fence (c : Call) (q q' : t) (r : Completion unit) :
  invoke c q = (r, q') ->
  O.fence (options q) = Some "FENCE" -> O.fence (options q') = Some "FENCE".
Proof.
  intros H F.
  destruct (target c) as [k|] eqn:Hk.
  2:{ destruct (invoke_serializing c q (or_introl Hk)) as [r' E].
      rewrite E in H. injection H as _ <-. unfold targets. now rewrite Hk. }
  destruct (Name_eq_dec k Nfence) as [->|Hne].
  { destruct (invoke_serializing c q (or_intror Hk)) as [r' E].
    rewrite E in H. injection H as _ <-. unfold targets. rewrite Hk. simpl.
    now destruct q as [ty ky cl []]. }
  destruct q as [ty ky cl []]. simpl in F.
  destruct c; try discriminate Hk; try (simpl in Hk; congruence).
  all: try (unfold_methods_in H; injection H as _ <-; exact F).
  - destruct type0; unfold_methods_in H; simpl in H; injection H as _ <-; exact F.
  - destruct precision; unfold_methods_in H; simpl in H; injection H as _ <-; exact F.
  - match goal with g : GeoJsonObject |- _ => destruct g end;
      unfold_methods_in H; injection H as _ <-; exact F.
  - destruct meters; unfold_methods_in H; injection H as _ <-; exact F.
Qed.

Lemma chain_keeps_fence (cs : list Call) (q q' : t) (r : Completion unit) :
  chain cs q = (r, q') ->
  O.fence (options q) = Some "FENCE" -> O.fence (options q') = Some "FENCE".
Proof.
  revert q; induction cs as [|c cs IH]; intros q H F; simpl in H.
  - injection H as _ <-. exact F.
  - unfold bind in H. destruct (invoke c q) as [[[]|e] q1] eqn:E.
    + exact (IH _ H (invoke_keeps_fence _ _ _ _ E F)).
    + injection H as _ <-. exact (invoke_keeps_fence _ _ _ _ E F).
Qed.

Lemma fence_in_arguments (q : t) :
  O.fence (options q) = Some "FENCE" -> In (JStr "FENCE") (arguments q).
Proof.
  intros F. unfold arguments. right. apply in_flat_map.
  exists Nfence. split.
  - unfold command_names. simpl. tauto.
  - simpl. rewrite F. simpl. now left.
Qed.

(** C10.  [executeFence] first sets the fence clause of the builder to FENCE
    and then serializes: the builder it leaves differs from the one it found
    in the fence clause only, the sequence it hands to the client holds FENCE,
    and so does every serialization of that builder made afterwards, whatever
    calls came in between, the one of a later [execute] included. *)
Theorem executeFence_mutates_fence (cb : Fn) (q : t) :
  let q1 := snd (executeFence cb q) in
  O.fence (options q1) = Some "FENCE"
  /\ options q1 = O.set_fence (Some "FENCE") (options q)
  /\ (type q1 = type q /\ key q1 = key q /\ client q1 = client q)
  /\ (forall k, k <> Nfence -> O.get (options q1) k = O.get (options q) k)
  /\ (forall c, client q = Some c ->
        exists arr, fst (executeFence cb q) = Normal (openLiveFence c (type q) arr cb)
                    /\ In (JStr "FENCE") arr)
  /\ (forall cs r q2, chain cs q1 = (r, q2) ->
        exists arr, commandArr q2 = (Normal arr, q2) /\ In (JStr "FENCE") arr
                    /\ forall c, client q = Some c ->
                         execute q2 = (Normal (sendCommand c (type q) 1 arr), q2)).
Proof.
  cbv zeta. rewrite executeFence_eq. cbn [snd fst].
  assert (F : O.fence (options (with_fence q)) = Some "FENCE")
    by now destruct q as [ty ky cl []].
  split; [exact F|]. split; [reflexivity|]. split; [now auto|]. split; [|split].
  - intros k Hk. destruct q as [ty ky cl []]. destruct k; try reflexivity. congruence.
  - intros c Hc. rewrite Hc. eexists. split; [reflexivity|].
    now apply fence_in_arguments.
  - intros cs r q2 H. exists (arguments q2). split; [apply commandArr_eq|].
    split.
    + apply fence_in_arguments. exact (chain_keeps_fence _ _ _ _ H F).
    + intros c Hc. rewrite execute_eq.
      destruct (chain_frame _ _ _ _ H) as (Ht & _ & Hcl).
      rewrite Hcl, Ht. simpl. now rewrite Hc.
Qed.

Lemma executeFence_mutates_fence_witness :
  let q := new "NEARBY" "fleet" (Some 7%nat) in
  let q1 := snd (executeFence 1%nat q) in
  fst (executeFence 1%nat q)
  = Normal (openLiveFence 7%nat "NEARBY" [JStr "fleet"; JStr "ASC"; JStr "FENCE"] 1%nat)
  /\ exists q2,
       chain [c_limit 3] q1 = (Normal tt, q2)
       /\ In (JStr "FENCE") (arguments q2)
       /\ execute q2
          = (Normal (sendCommand 7%nat "NEARBY" 1
                       [JStr "fleet"; JStr "LIMIT"; JNum 3; JStr "ASC"; JStr "FENCE"]), q2).
Proof.
  cbv zeta. split; [reflexivity|].
  eexists. split; [reflexivity|].
  destruct (executeFence_mutates_fence 1%nat (new "NEARBY" "fleet" (Some 7%nat)))
    as (_ & _ & _ & _ & _ & L).
  destruct (L [c_limit 3] _ _ eq_refl) as (arr & E & I & X).
  rewrite commandArr_eq in E. injection E as <-.
  split; [exact I|]. exact (X _ eq_refl).
Defined.

(** ** Properties of the live geofence channel *)

Module L := LiveGeofence.

Section ChannelProperties.

Context {Json : Type}.
Variable JSON_parse : string -> option Json.

Lemma handler_calls_app (tr1 tr2 : list (@L.Effect Json)) :
  L.handler_calls (tr1 ++ tr2) = L.handler_calls tr1 ++ L.handler_calls tr2.
Proof.
  induction tr1 as [|e tr1 IH]; [reflexivity|].
  destruct e; simpl; now rewrite ?IH.
Qed.

Lemma run_app (evs1 evs2 : list L.Event) (g : L.t) :
  L.run JSON_parse (evs1 ++ evs2) g
  = let '(g1, tr1) := L.run JSON_parse evs1 g in
    let '(g2, tr2) := L.run JSON_parse evs2 g1 in
    (g2, tr1 ++ tr2).
Proof.
  revert g; induction evs1 as [|e evs1 IH]; intros g; simpl.
  - now destruct (L.run JSON_parse evs2 g).
  - destruct (L.step JSON_parse e g) as [g1 tr1]. rewrite IH.
    destruct (L.run JSON_parse evs1 g1) as [g2 tr2].
    destruct (L.run JSON_parse evs2 g2) as [g3 tr3].
    now rewrite app_assoc.
Qed.

Lemma execute_app (cb : Fn) (fs1 fs2 : list L.Frame) (g : L.t) :
  L.execute JSON_parse cb (fs1 ++ fs2) g
  = let '(g1, tr1) := L.execute JSON_parse cb fs1 g in
    let '(g2, tr2) := L.execute JSON_parse cb fs2 g1 in
    (g2, tr1 ++ tr2).
Proof.
  revert g; induction fs1 as [|f fs1 IH]; intros g; simpl.
  - now destruct (L.execute JSON_parse cb fs2 g).
  - destruct (match f with
              | L.Reply reply => L.returnReply JSON_parse cb reply g
              | L.ReplyError err => L.returnError cb err g
              | L.FatalError err => L.returnFatalError cb err g
              end) as [g1 tr1].
    rewrite IH.
    destruct (L.execute JSON_parse cb fs1 g1) as [g2 tr2].
    destruct (L.execute JSON_parse cb fs2 g2) as [g3 tr3].
    now rewrite app_assoc.
Qed.

(** The reply OK leaves the channel as it is and reaches the logger at most. *)
Lemma returnReply_OK (cb : Fn) (g : L.t) :
  L.returnReply JSON_parse cb "OK" g
  = (g, if L.debug g then [L.logger_log "OK"] else []).
Proof. reflexivity. Qed.

Lemma execute_skips_OK (cb : Fn) (pre post : list L.Frame) (g : L.t) :
  fst (L.execute JSON_parse cb (pre ++ L.Reply "OK" :: post) g)
  = fst (L.execute JSON_parse cb (pre ++ post) g)
  /\ L.handler_calls (snd (L.execute JSON_parse cb (pre ++ L.Reply "OK" :: post) g))
     = L.handler_calls (snd (L.execute JSON_parse cb (pre ++ post) g)).
Proof.
  rewrite !execute_app.
  destruct (L.execute JSON_parse cb pre g) as [g1 tr1].
  cbn [L.execute]. rewrite returnReply_OK.
  destruct (L.execute JSON_parse cb post g1) as [g2 tr2]. cbn [fst snd].
  split; [reflexivity|].
  rewrite !handler_calls_app. f_equal.
  now destruct (L.debug g1).
Qed.

Lemma step_skips_OK (pre post : list L.Frame) (g : L.t) :
  fst (L.step JSON_parse (L.on_data (pre ++ L.Reply "OK" :: post)) g)
  = fst (L.step JSON_parse (L.on_data (pre ++ post)) g)
  /\ L.handler_calls (snd (L.step JSON_parse (L.on_data (pre ++ L.Reply "OK" :: post)) g))
     = L.handler_calls (snd (L.step JSON_parse (L.on_data (pre ++ post)) g)).
Proof.
  unfold L.step. destruct (L.socket g) as [s|]; [|now split].
  destruct (L.destroyed s); [now split|]. apply execute_skips_OK.
Qed.

Lemma returnReply_not_OK (cb : Fn) (reply : string) (g : L.t) (f : Fn) (err : option string) :
  ~ In (f, err, L.raw "OK") (L.handler_calls (snd (L.returnReply JSON_parse cb reply g))).
Proof.
  unfold L.returnReply. destruct (String.eqb_spec reply "OK") as [->|Hne].
  - cbn [snd]. now destruct (L.debug g).
  - assert (Hraw : forall tr : list (@L.Effect Json),
               L.handler_calls ((if L.debug g then [L.logger_log reply] else []) ++ tr)
               = L.handler_calls tr) by (intros tr; now destruct (L.debug g)).
    destruct ((L.charAt0 reply =? "{")%string || (L.charAt0 reply =? "[")%string);
      [destruct (JSON_parse reply)|]; cbn [snd]; rewrite Hraw; simpl;
        intros [E|[]]; congruence.
Qed.

Lemma execute_not_OK (cb : Fn) (frames : list L.Frame) (g : L.t) (f : Fn) (err : option string) :
  ~ In (f, err, L.raw "OK") (L.handler_calls (snd (L.execute JSON_parse cb frames g))).
Proof.
  revert g; induction frames as [|fr frames IH]; intros g; simpl; [tauto|].
  destruct fr as [reply|e|e].
  - pose proof (returnReply_not_OK cb reply g f err) as H.
    destruct (L.returnReply JSON_parse cb reply g) as [g1 tr1].
    specialize (IH g1). destruct (L.execute JSON_parse cb frames g1) as [g2 tr2].
    cbn [snd] in *. rewrite handler_calls_app, in_app_iff. tauto.
  - specialize (IH g). unfold L.returnError.
    destruct (L.execute JSON_parse cb frames g) as [g2 tr2].
    cbn [snd] in *. simpl. intros [E|H]; [congruence | tauto].
  - specialize (IH (L.destroy_socket g)). unfold L.returnFatalError.
    destruct (L.execute JSON_parse cb frames (L.destroy_socket g)) as [g2 tr2].
    cbn [snd] in *. simpl. intros [E|H]; [congruence | tauto].
Qed.

Lemma step_not_OK (e : L.Event) (g : L.t) (f : Fn) (err : option string) :
  ~ In (f, err, L.raw "OK") (L.handler_calls (snd (L.step JSON_parse e g))).
Proof.
  destruct e; simpl; try tauto.
  - unfold L.close. destruct (L.socket g); simpl; tauto.
  - destruct (L.socket g) as [s|]; [|simpl; tauto].
    destruct (L.destroyed s); [simpl; tauto|]. cbn [snd].
    unfold L.connectListener. destruct (L.password s =? "")%string; simpl; tauto.
  - destruct (L.socket g) as [s|]; [|simpl; tauto].
    destruct (L.destroyed s); [simpl; tauto|]. apply execute_not_OK.
  - destruct (L.socket g) as [s|]; [|simpl; tauto].
    destruct (L.destroyed s); simpl; tauto.
  - destruct (L.socket g) as [s|]; [|simpl; tauto].
    destruct (L.destroyed s && negb (L.close_emitted s)); [|simpl; tauto].
    cbn [snd]. unfold L.closeListener. destruct (L.onCloseCb g); simpl; tauto.
Qed.

(** C9.  A reply equal to OK is dropped wherever it stands in the stream: a
    chunk with such a reply at any place, in a run with any events before and
    after it, leaves the channel in the same state and gives the handler the
    same invocations as the chunk without it; and in no run does the handler
    receive the text OK. *)
Theorem OK_reply_never_forwarded
  (before after : list L.Event) (pre post : list L.Frame) (g : L.t) :
  let with_OK :=
    L.run JSON_parse (before ++ L.on_data (pre ++ L.Reply "OK" :: post) :: after) g in
  let without :=
    L.run JSON_parse (before ++ L.on_data (pre ++ post) :: after) g in
  fst with_OK = fst without
  /\ L.handler_calls (snd with_OK) = L.handler_calls (snd without)
  /\ (forall events f err,
         ~ In (f, err, L.raw "OK") (L.handler_calls (snd (L.run JSON_parse events g)))).
Proof.
  cbv zeta. rewrite !run_app.
  destruct (L.run JSON_parse before g) as [g1 tr1]. cbn [L.run].
  destruct (step_skips_OK pre post g1) as [Hg Htr].
  destruct (L.step JSON_parse (L.on_data (pre ++ L.Reply "OK" :: post)) g1) as [g2 tr2].
  destruct (L.step JSON_parse (L.on_data (pre ++ post)) g1) as [g2' tr2'].
  cbn [fst snd] in Hg, Htr. subst g2'.
  destruct (L.run JSON_parse after g2) as [g3 tr3]. cbn [fst snd].
  split; [reflexivity|]. split.
  - rewrite !handler_calls_app. now rewrite Htr.
  - clear. intros events f err. revert g.
    induction events as [|e events IH]; intros g; simpl; [tauto|].
    pose proof (step_not_OK e g f err) as H.
    destruct (L.step JSON_parse e g) as [g1 tr1]. specialize (IH g1).
    destruct (L.run JSON_parse events g1) as [g2 tr2]. cbn [snd] in *.
    rewrite handler_calls_app, in_app_iff. tauto.
Qed.

Lemma execute_nonfatal (cb : Fn) (frames : list L.Frame) (g : L.t) :
  Forall L.nonfatal frames -> fst (L.execute JSON_parse cb frames g) = g.
Proof.
  induction 1 as [|f frames Hf _ IH]; [reflexivity|]. simpl.
  destruct f as [reply|e|e]; [| |destruct Hf].
  - unfold L.returnReply.
    destruct (reply =? "OK")%string;
      [|destruct ((L.charAt0 reply =? "{")%string || (L.charAt0 reply =? "[")%string);
        [destruct (JSON_parse reply)|]];
      destruct (L.execute JSON_parse cb frames g); exact IH.
  - unfold L.returnError. destruct (L.execute JSON_parse cb frames g); exact IH.
Qed.

Lemma run_data_destroyed (chunks : list (list L.Frame)) (g : L.t) (s : L.Socket) :
  L.socket g = Some s -> L.destroyed s = true ->
  L.run JSON_parse (map L.on_data chunks) g = (g, []).
Proof.
  intros Hs Hd. induction chunks as [|c chunks IH]; [reflexivity|].
  simpl. rewrite Hs, Hd, IH. reflexivity.
Qed.

Lemma app_eq_snoc {A} (l1 l2 pre : list A) (x : A) :
  l1 ++ l2 = pre ++ [x] ->
  (exists pre', pre = l1 ++ pre' /\ l2 = pre' ++ [x]) \/ (l1 = pre ++ [x] /\ l2 = []).
Proof.
  revert pre; induction l1 as [|a l1 IH]; intros pre H.
  - left. now exists pre.
  - destruct pre as [|b pre].
    + injection H as -> H. apply app_eq_nil in H as [-> ->]. now right.
    + injection H as -> H. destruct (IH pre H) as [(pre' & -> & ->)|[-> ->]].
      * left. now exists pre'.
      * now right.
Qed.

(** However a stream that ends with its only fatal error is cut into chunks,
    the channel does with it what the parser callbacks do with its frames in
    order. *)
Lemma run_chunks (chunks : list (list L.Frame)) (pre : list L.Frame) (err : string)
    (g : L.t) (s : L.Socket) :
  L.socket g = Some s -> L.destroyed s = false ->
  Forall L.nonfatal pre ->
  List.concat chunks = pre ++ [L.FatalError err] ->
  L.run JSON_parse (map L.on_data chunks) g
  = L.execute JSON_parse (L.handler s) (pre ++ [L.FatalError err]) g.
Proof.
  intros Hs Hd. revert pre.
  induction chunks as [|c chunks IH]; intros pre Hpre H; simpl in H.
  - now destruct pre.
  - cbn [map L.run L.step]. rewrite Hs, Hd.
    destruct (app_eq_snoc _ _ _ _ H) as [(pre' & -> & H')|[-> H']].
    + apply Forall_app in Hpre as [Hc Hpre'].
      rewrite <- app_assoc, execute_app.
      pose proof (execute_nonfatal (L.handler s) c g Hc) as E.
      destruct (L.execute JSON_parse (L.handler s) c g) as [g1 tr1].
      cbn [fst] in E. subst g1. now rewrite (IH pre' Hpre' H').
    + destruct (L.execute JSON_parse (L.handler s) (pre ++ [L.FatalError err]) g)
        as [g1 tr1] eqn:E.
      assert (Hg1 : exists s1, L.socket g1 = Some s1 /\ L.destroyed s1 = true).
      { rewrite execute_app in E.
        pose proof (execute_nonfatal (L.handler s) pre g Hpre) as E0.
        destruct (L.execute JSON_parse (L.handler s) pre g) as [g0 tr0].
        cbn [fst] in E0. subst g0. simpl in E. injection E as <- _.
        unfold L.destroy_socket. simpl. rewrite Hs. now eexists. }
      destruct Hg1 as (s1 & Hs1 & Hd1).
      assert (Hc : chunks = map (fun _ => []) chunks).
      { clear -H'. induction chunks as [|c chunks IH]; [reflexivity|].
        simpl in H'. apply app_eq_nil in H' as [-> H']. simpl. now rewrite <- IH. }
      rewrite (run_data_destroyed chunks g1 s1 Hs1 Hd1). now rewrite app_nil_r.
Qed.

(** C4, as the code has it.  For a stream that decodes to an acknowledgment,
    a reply that starts with a brace and parses as JSON, and a fatal error,
    cut into chunks in any way, the handler is invoked twice: once with the
    parsed value before the socket is destroyed (the acknowledgment is not
    forwarded), and once with the fatal error right after the socket has been
    destroyed.  From then on no chunk reaches the parser. *)
Theorem fatal_error_forwarded_after_destroy
  (debug : bool) (host : string) (port : number) (password command : string)
  (cb : Fn) (rest err : string) (j : Json) (chunks : list (list L.Frame)) :
  JSON_parse (String "{" rest) = Some j ->
  List.concat chunks = [L.Reply "OK"; L.Reply (String "{" rest); L.FatalError err] ->
  let result :=
    L.run JSON_parse
      (L.call_open host port password command cb :: L.on_connect :: map L.on_data chunks)
      (L.new debug) in
  L.handler_calls (snd result) = [(cb, None, L.parsed j); (cb, Some err, L.null)]
  /\ L.handler_calls (L.before_destroy (snd result)) = [(cb, None, L.parsed j)]
  /\ L.handler_calls (L.after_destroy (snd result)) = [(cb, Some err, L.null)]
  /\ (forall frames,
         L.step JSON_parse (L.on_data frames) (fst result) = (fst result, [])).
Proof.
  intros Hj Hchunks. cbv zeta.
  set (s := L.mkSocket false false password command cb).
  set (g := L.mk debug (Some s) None).
  change (L.call_open host port password command cb :: L.on_connect :: map L.on_data chunks)
    with ([L.call_open host port password command cb; L.on_connect] ++ map L.on_data chunks).
  rewrite run_app.
  change (L.run JSON_parse [L.call_open host port password command cb; L.on_connect]
            (L.new debug))
    with (g, [L.socket_connect port host] ++ L.connectListener s ++ @nil (@L.Effect Json)).
  cbv beta iota.
  rewrite (run_chunks chunks [L.Reply "OK"; L.Reply (String "{" rest)] err g s
             eq_refl eq_refl);
    [|repeat constructor | exact Hchunks].
  cbn [app L.execute]. rewrite returnReply_OK.
  unfold L.returnReply, L.returnFatalError.
  assert (Hne : (String "{" rest =? "OK")%string = false) by reflexivity.
  rewrite Hne. change (L.charAt0 (String "{" rest)) with "{"%string.
  change (("{" =? "{")%string || ("{" =? "[")%string) with true. cbv iota.
  rewrite Hj. cbn [fst snd L.debug g].
  unfold L.connectListener.
  destruct debug, (L.password s =? "")%string; cbn;
    (split; [reflexivity|]; split; [reflexivity|]; split; [reflexivity|]);
    intros frames; reflexivity.
Qed.

(** The observer is told of every ['close'] the socket emits, whatever
    destroyed the socket. *)
Lemma on_close_invokes_observer (g : L.t) (s : L.Socket) (f : Fn) :
  L.socket g = Some s -> L.destroyed s = true -> L.close_emitted s = false ->
  L.onCloseCb g = Some f ->
  snd (L.step JSON_parse L.on_close g) = [L.onCloseCb_call f false].
Proof.
  intros Hs Hd Hc Hf. unfold L.step, L.closeListener.
  now rewrite Hs, Hd, Hc, Hf.
Qed.

(** C3.  After the caller's own [close()], with no closure by the peer, the
    ['close'] the destroyed socket emits runs the listener of [open], which
    invokes the registered observer with [false]. *)
Theorem explicit_close_invokes_observer
  (debug : bool) (host : string) (port : number) (password command : string)
  (cb f : Fn) :
  let events :=
    [L.call_open host port password command cb; L.call_onClose f; L.on_connect;
     L.call_close; L.on_close] in
  ~ In L.peer_closed events
  /\ L.observer_calls (snd (L.run JSON_parse events (L.new debug))) = [(f, false)].
Proof.
  cbv zeta. split.
  - simpl. intros H. repeat destruct H as [H|H]; discriminate H || exact H.
  - cbn [L.run L.step L.open L.onClose L.close L.new L.socket L.destroyed
         L.debug L.onCloseCb L.destroy_socket option_map L.destroy
         L.close_emitted L.password L.command L.handler andb negb
         L.closeListener].
    unfold L.connectListener. cbn [L.password L.command].
    destruct (password =? "")%string; reflexivity.
Qed.

End ChannelProperties.

(** For the stream of an acknowledgment, a JSON object and a fatal error, no
    JSON parser and no point of the trace taken as the moment of closing make
    the handler's invocations one before that point and none after it: there
    are two. *)
Lemma handler_invoked_for_fatal_error :
  ~ exists (Json : Type) (JSON_parse : string -> option Json)
           (tr1 tr2 : list (@L.Effect Json)),
      snd (L.run JSON_parse
             [L.call_open "localhost" 9851 "" "NEARBY fleet FENCE POINT 33 -115 1000" 1%nat;
              L.on_connect;
              L.on_data [L.Reply "OK"; L.Reply "{}"; L.FatalError "Protocol error"]]
             (L.new false)) = tr1 ++ tr2
      /\ List.length (L.handler_calls tr1) = 1%nat
      /\ L.handler_calls tr2 = [].
Proof.
  intros (Json & parse & tr1 & tr2 & E & H1 & H2).
  apply (f_equal (fun tr => List.length (L.handler_calls tr))) in E.
  rewrite handler_calls_app, H2, app_nil_r, H1 in E.
  cbn in E. destruct (parse "{}"); discriminate E.
Qed.

Lemma fatal_error_forwarded_after_destroy_witness :
  let parse := fun s : string => Some s in
  let tr :=
    snd (L.run parse
           [L.call_open "localhost" 9851 "" "NEARBY fleet FENCE POINT 33 -115 1000" 1%nat;
            L.on_connect;
            L.on_data [L.Reply "OK"];
            L.on_data [L.Reply "{}"; L.FatalError "Protocol error"]]
           (L.new false)) in
  L.handler_calls tr
  = [(1%nat, None, L.parsed "{}"); (1%nat, Some "Protocol error", L.null)].
Proof.
  cbv zeta.
  exact (proj1 (fatal_error_forwarded_after_destroy (fun s : string => Some s)
                  false "localhost" 9851 "" "NEARBY fleet FENCE POINT 33 -115 1000"
                  1%nat "}" "Protocol error" "{}"
                  [[L.Reply "OK"]; [L.Reply "{}"; L.FatalError "Protocol error"]]
                  eq_refl eq_refl)).
Defined.

(** ** Further properties of the builder *)

Lemma hashes_some_throws (p : number) (q : t) :
  invoke (c_hashes (Some p)) q = (Throw (Error hashes_message), q).
Proof.
  unfold invoke, hashes. change (js_neq_undefined (Some p)) with true.
  now rewrite orb_true_l.
Qed.

(** What a call that throws leaves of the builder: the builder it found, or
    that builder with its fence clause set. *)
Lemma invoke_throw_state (c : Call) (q q' : t) (e : JsError) :
  invoke c q = (Throw e, q') ->
  (q' = q
   /\ ((exists p, c = c_hashes (Some p))
       \/ (exists g, c = c_object g /\ JSON_stringify g = None)
       \/ (c = c_execute /\ client q = None)))
  \/ (q' = with_fence q /\ (exists cb, c = c_executeFence cb) /\ client q = None).
Proof.
  intros H.
  destruct c;
    [> try (destruct q as [ty ky cl o]; unfold_methods_in H; simpl in H; discriminate H) ..
     | unfold invoke, bind in H; rewrite commandArr_eq in H; discriminate H
     | unfold invoke, bind in H; rewrite execute_eq in H
     | unfold invoke, bind in H; rewrite executeFence_eq in H ].
  - destruct q as [ty ky cl o], type0; unfold_methods_in H; simpl in H; discriminate H.
  - destruct precision as [p|].
    + rewrite hashes_some_throws in H. injection H as _ <-.
      left. split; [reflexivity|]. left. now exists p.
    + destruct q as [ty ky cl o]; unfold_methods_in H; simpl in H; discriminate H.
  - destruct geojson as [text|].
    + destruct q as [ty ky cl o]; unfold_methods_in H; discriminate H.
    + unfold invoke, object, throw in H. cbn [JSON_stringify] in H.
      injection H as _ <-. left. split; [reflexivity|]. right. left.
      now exists unserializable.
  - destruct q as [ty ky cl o], meters; unfold_methods_in H; discriminate H.
  - destruct (client q) eqn:C; [discriminate H|]. injection H as _ <-.
    left. split; [reflexivity|]. right. right. now split.
  - destruct (client q) eqn:C; [discriminate H|]. injection H as _ <-.
    right. split; [reflexivity|]. split; [now exists callback | reflexivity].
Qed.


(** X1.  The search type, the key and the client given to the constructor
    stay with the builder through any sequence of calls, also one that ends
    in a throw: every serialization starts with that key and [execute] sends
    that type to that client. *)
Theorem constructor_arguments_are_kept
  (ty ky : string) (cl : option RedisClient) (cs : list Call)
  (r : Completion unit) (q : t) :
  chain cs (new ty ky cl) = (r, q) ->
  type q = ty /\ key q = ky /\ client q = cl
  /\ exists rest,
       commandArr q = (Normal (JStr ky :: rest), q)
       /\ forall c, cl = Some c ->
            execute q = (Normal (sendCommand c ty 1 (JStr ky :: rest)), q).
Proof.
  intros H. destruct (chain_frame _ _ _ _ H) as (Ht & Hk & Hc).
  cbn [new type key client] in Ht, Hk, Hc.
  repeat split; try assumption.
  exists (flat_map (fun c => emit (O.get (options q) c)) command_names). split.
  - rewrite commandArr_eq. now rewrite Hk.
  - intros c ->. rewrite execute_eq, Hc, Ht. unfold arguments. now rewrite Hk.
Qed.

Lemma constructor_arguments_are_kept_witness :
  exists q,
    chain [c_limit 2; c_hashes (Some 5); c_clip] (new "WITHIN" "fleet" (Some 3%nat))
    = (Throw (Error hashes_message), q)
    /\ type q = "WITHIN" /\ key q = "fleet" /\ client q = Some 3%nat.
Proof.
  eexists. split; [reflexivity|].
  destruct (constructor_arguments_are_kept "WITHIN" "fleet" (Some 3%nat)
              [c_limit 2; c_hashes (Some 5); c_clip] _ _ eq_refl)
    as (Ht & Hk & Hc & _).
  exact (conj Ht (conj Hk Hc)).
Defined.

(** A call that returns and addresses a kind contributes something to it. *)
Lemma fragment_nonempty (c : Call) (k : Name) (q q' : t) :
  invoke c q = (Normal tt, q') -> target c = Some k -> fragment c <> [].
Proof.
  intros H T. destruct c; simpl in T |- *; try discriminate.
  - destruct type0; discriminate.
  - destruct geojson as [text|]; [discriminate|].
    unfold invoke, object, throw in H. cbn [JSON_stringify] in H. discriminate H.
  - destruct meters; discriminate.
Qed.

Lemma emit_with_fence (q : t) (k : Name) :
  emit (O.get (options (with_fence q)) k)
  = if Name_eqb Nfence k then [JStr "FENCE"] else emit (O.get (options q) k).
Proof. destruct q as [ty ky cl []], k; reflexivity. Qed.

Lemma invoke_keeps_clauses (c : Call) (q q' : t) (r : Completion unit) (k : Name) :
  invoke c q = (r, q') ->
  emit (O.get (options q) k) <> [] -> emit (O.get (options q') k) <> [].
Proof.
  intros H Hne. destruct r as [[]|e].
  - rewrite (invoke_emit _ _ _ k H). unfold targets.
    destruct (target c) as [k'|] eqn:Hk; [|exact Hne].
    destruct (Name_eqb k' k); [|exact Hne].
    destruct (repeatable k).
    + intros E. apply app_eq_nil in E as [E _]. contradiction.
    + exact (fragment_nonempty c k' _ _ H Hk).
  - destruct (invoke_throw_state _ _ _ _ H) as [[-> _]|[-> _]]; [exact Hne|].
    rewrite emit_with_fence. destruct (Name_eqb Nfence k); [discriminate | exact Hne].
Qed.

(** X4.  No sequence of calls removes a clause: a kind that contributes to
    the serialization of a builder still contributes to it after any further
    calls, whether they all return or one of them throws. *)
Theorem clauses_are_never_removed
  (cs : list Call) (q q' : t) (r : Completion unit) (k : Name) :
  chain cs q = (r, q') ->
  emit (O.get (options q) k) <> [] -> emit (O.get (options q') k) <> [].
Proof.
  revert q; induction cs as [|c cs IH]; intros q H Hne; simpl in H.
  - injection H as _ <-. exact Hne.
  - unfold bind in H. destruct (invoke c q) as [[[]|e] q1] eqn:E.
    + exact (IH _ H (invoke_keeps_clauses _ _ _ _ k E Hne)).
    + injection H as _ <-. exact (invoke_keeps_clauses _ _ _ _ k E Hne).
Qed.

Lemma clauses_are_never_removed_witness :
  let q := snd (chain [c_nofields] (scan "fleet")) in
  let q' := snd (chain [c_limit 1; c_execute; c_asc] q) in
  fst (chain [c_limit 1; c_execute; c_asc] q) = Throw no_client
  /\ emit (O.get (options q') Nnofields) <> [].
Proof.
  cbv zeta. split; [reflexivity|].
  apply (clauses_are_never_removed [c_limit 1; c_execute; c_asc]
           (snd (chain [c_nofields] (scan "fleet"))) _ (Throw no_client) Nnofields).
  - reflexivity.
  - discriminate.
Defined.

(** X3.  The fragments of a repeatable kind (match, where, where-in,
    where-eval, where-eval-sha) only grow: after further calls that all
    return, the kind holds what it held before, followed by the fragments of
    the calls that address it, in call order. *)
Theorem repeatable_clauses_accumulate (cs : list Call) (q q' : t) (k : Name) :
  chain cs q = (Normal tt, q') ->
  repeatable k = true ->
  emit (O.get (options q') k)
  = emit (O.get (options q) k) ++ flat_map fragment (calls_of k cs).
Proof.
  intros H R. rewrite (chain_emit _ _ _ k H). unfold clause_from. now rewrite R.
Qed.

Lemma repeatable_clauses_accumulate_witness :
  let q := snd (chain [c_match "a*"; c_sparse 2] (scan "fleet")) in
  let cs := [c_where "speed" [JNum 70; JStr "+inf"]; c_match "b*"; c_limit 1] in
  emit (O.get (options (snd (chain cs q))) Nmatches)
  = [JStr "MATCH"; JStr "a*"; JStr "MATCH"; JStr "b*"].
Proof.
  cbv zeta.
  exact (repeatable_clauses_accumulate
           [c_where "speed" [JNum 70; JStr "+inf"]; c_match "b*"; c_limit 1]
           (snd (chain [c_match "a*"; c_sparse 2] (scan "fleet"))) _ Nmatches
           eq_refl eq_refl).
Defined.

(** X5.  A builder made by a static factory has no client, and no call gives
    it one: after any sequence of calls [execute] throws and leaves the
    builder as it is, and [executeFence] throws too, but only after it has set
    the fence clause, which the next serialization then carries. *)
Theorem static_factory_cannot_execute
  (ky : string) (q0 : t) (cs : list Call) (r : Completion unit) (q : t) :
  In q0 [intersects ky; search ky; nearby ky; scan ky; within ky] ->
  chain cs q0 = (r, q) ->
  execute q = (Throw no_client, q)
  /\ forall cb,
       executeFence cb q = (Throw no_client, with_fence q)
       /\ exists arr, commandArr (with_fence q) = (Normal arr, with_fence q)
                      /\ In (JStr "FENCE") arr.
Proof.
  intros Hq0 H.
  assert (C0 : client q0 = None).
  { simpl in Hq0. repeat destruct Hq0 as [<-|Hq0]; try reflexivity. destruct Hq0. }
  destruct (chain_frame _ _ _ _ H) as (_ & _ & C). rewrite C0 in C.
  split.
  - now rewrite execute_eq, C.
  - intros cb. split.
    + now rewrite executeFence_eq, C.
    + exists (arguments (with_fence q)). split; [apply commandArr_eq|].
      apply fence_in_arguments. now destruct q as [ty k cl []].
Qed.

Lemma static_factory_cannot_execute_witness :
  let q := snd (chain [c_point 33 (-115) None; c_limit 5] (nearby "fleet")) in
  execute q = (Throw no_client, q).
Proof.
  cbv zeta.
  exact (proj1 (static_factory_cannot_execute "fleet" (nearby "fleet")
                  [c_point 33 (-115) None; c_limit 5] (Normal tt) _
                  (or_intror (or_intror (or_introl eq_refl))) eq_refl)).
Defined.

(** X6.  [point] without a distance stores the three elements POINT, latitude
    and longitude, with a distance it stores four; either way it replaces
    what an earlier [point] stored and changes no other kind. *)
Theorem point_meters_is_optional (lat lon : number) (q : t) :
  (exists q', point lat lon None q = (Normal tt, q')
              /\ O.get (options q') Npoint = Array [JStr "POINT"; JNum lat; JNum lon]
              /\ forall k, k <> Npoint -> O.get (options q') k = O.get (options q) k)
  /\ forall m,
       exists q', point lat lon (Some m) q = (Normal tt, q')
                  /\ O.get (options q') Npoint
                     = Array [JStr "POINT"; JNum lat; JNum lon; JNum m]
                  /\ forall k, k <> Npoint -> O.get (options q') k = O.get (options q) k.
Proof.
  destruct q as [ty ky cl []]. split; [|intros m].
  all: eexists; split; [reflexivity|]; split; [reflexivity|].
  all: intros k Hk; destruct k; try reflexivity; congruence.
Qed.

(** X7.  [output] keeps the precision for the kind hashes only: for every
    other kind the clause is the kind alone, whatever precision came with it.
    For hashes the precision is stored as it came, so [output] of hashes
    without a precision, like [hashes] of [undefined], puts an [undefined]
    element into the serialization. *)
Theorem output_precision (q : t) :
  (forall k p, k <> Ohashes ->
     output k p q = output k None q
     /\ O.get (options (snd (output k p q))) Noutput = Array [JStr (OutputType_value k)])
  /\ (forall p, O.get (options (snd (output Ohashes p q))) Noutput
                = Array [JStr "hashes"; of_optional p])
  /\ hashes None q = output Ohashes None q
  /\ exists arr, commandArr (snd (output Ohashes None q)) = (Normal arr, snd (output Ohashes None q))
                 /\ In JUndefined arr.
Proof.
  destruct q as [ty ky cl o]. split; [|split; [|split]].
  - intros k p Hk. destruct k, o; try (split; reflexivity). congruence.
  - intros p. now destruct o.
  - reflexivity.
  - eexists. split; [apply commandArr_eq|].
    right. apply in_flat_map. exists Noutput. split.
    + unfold command_names. simpl. tauto.
    + destruct o. simpl. tauto.
Qed.

(** X8.  [where] appends WHERE, the field and the criteria; [whereEval]
    appends WHEREEVAL, the script between double quotes, the number of
    arguments and the arguments; [whereEvalSha] appends WHEREEVALSHA, the
    digest as it is, the number of arguments and the arguments.  Each appends
    to what its kind already holds and touches no other kind. *)
Theorem where_fragments (q : t) :
  (forall field criteria,
     exists q', where_ field criteria q = (Normal tt, q')
       /\ O.get (options q') Nwhere
          = Array (O.where_ (options q) ++ JStr "WHERE" :: JStr field :: criteria)
       /\ forall k, k <> Nwhere -> O.get (options q') k = O.get (options q) k)
  /\ (forall script args,
        exists q', whereEval script args q = (Normal tt, q')
          /\ O.get (options q') NwhereEval
             = Array (O.whereEval (options q)
                        ++ JStr "WHEREEVAL" :: JStr (dquote ++ script ++ dquote)%string
                             :: JNum (Z.of_nat (List.length args)) :: args)
          /\ forall k, k <> NwhereEval -> O.get (options q') k = O.get (options q) k)
  /\ (forall sha args,
        exists q', whereEvalSha sha args q = (Normal tt, q')
          /\ O.get (options q') NwhereEvalSha
             = Array (O.whereEvalSha (options q)
                        ++ JStr "WHEREEVALSHA" :: JStr sha
                             :: JNum (Z.of_nat (List.length args)) :: args)
          /\ forall k, k <> NwhereEvalSha -> O.get (options q') k = O.get (options q) k).
Proof.
  destruct q as [ty ky cl []].
  split; [|split]; intros a b; eexists; (split; [reflexivity|]); (split; [reflexivity|]);
    intros k Hk; destruct k; try reflexivity; congruence.
Qed.





Section CommandStrProperties.

Variable Number_toString : number -> string.


End CommandStrProperties.

(** ** Properties of the GeoJSON point *)

Lemma accepted_iff (x : GeoJson.JsNumber) :
  GeoJson.accepted x
  <-> GeoJson.lt x (GeoJson.Finite GeoJson.minus_180)
      || GeoJson.gt x (GeoJson.Finite GeoJson.plus_180) = false.
Proof.
  destruct x as [q| | |].
  - unfold GeoJson.accepted, GeoJson.gt, GeoJson.lt.
    rewrite orb_false_iff, !negb_false_iff.
    now rewrite !QArith_base.Qle_bool_iff.
  - split; [intros [] | discriminate].
  - split; [intros [] | discriminate].
  - split; [reflexivity | exact (fun _ => I)].
Qed.

Section GeoJsonPointProperties.

Variable Number_toString : GeoJson.JsNumber -> string.

(** X10.  The constructor of a GeoJSON point accepts a coordinate when it is
    NaN or lies between -180 and 180, bounds included, and applies that same
    range to the latitude as to the longitude.  On accepted coordinates it
    returns the point with the longitude first and the properties as given;
    otherwise it throws, naming the longitude when the longitude is out of
    range, whatever the latitude, and the latitude when only the latitude
    is. *)
Theorem GeoJsonPoint_range (longitude latitude : GeoJson.JsNumber) (properties : JsVal) :
  (GeoJson.accepted longitude -> GeoJson.accepted latitude ->
     GeoJson.new Number_toString longitude latitude properties
     = Normal (GeoJson.mkPoint GeoJson.Point (longitude, latitude) properties))
  /\ (~ GeoJson.accepted longitude ->
        GeoJson.new Number_toString longitude latitude properties
        = Throw (Error (GeoJson.longitude_message Number_toString longitude)))
  /\ (GeoJson.accepted longitude -> ~ GeoJson.accepted latitude ->
        GeoJson.new Number_toString longitude latitude properties
        = Throw (Error (GeoJson.latitude_message Number_toString latitude))).
Proof.
  unfold GeoJson.new. rewrite !accepted_iff.
  destruct (GeoJson.lt longitude (GeoJson.Finite GeoJson.minus_180)
            || GeoJson.gt longitude (GeoJson.Finite GeoJson.plus_180));
    destruct (GeoJson.lt latitude (GeoJson.Finite GeoJson.minus_180)
              || GeoJson.gt latitude (GeoJson.Finite GeoJson.plus_180));
    repeat split; intros; congruence.
Qed.

End GeoJsonPointProperties.

Lemma GeoJsonPoint_range_witness :
  GeoJson.new (fun _ => "") (GeoJson.Finite (QArith_base.Qmake (-180) 1))
    (GeoJson.Finite (QArith_base.Qmake 100 1)) JUndefined
  = Normal (GeoJson.mkPoint GeoJson.Point
              (GeoJson.Finite (QArith_base.Qmake (-180) 1),
               GeoJson.Finite (QArith_base.Qmake 100 1)) JUndefined)
  /\ GeoJson.new (fun _ => "") GeoJson.NaN GeoJson.PosInfinity JNull
     = Throw (Error (GeoJson.latitude_message (fun _ => "") GeoJson.PosInfinity)).
Proof.
  split.
  - apply (proj1 (GeoJsonPoint_range (fun _ => "") _ _ JUndefined)).
    + simpl. split; discriminate.
    + simpl. split; discriminate.
  - apply (proj2 (proj2 (GeoJsonPoint_range (fun _ => "") GeoJson.NaN GeoJson.PosInfinity JNull))).
    + exact I.
    + intros H. exact H.
Defined.

(** ** Further properties of the channel *)

Section ChannelInvariants.

Context {Json : Type}.
Variable JSON_parse : string -> option Json.

Lemma socket_writes_app (tr1 tr2 : list (@L.Effect Json)) :
  socket_writes (tr1 ++ tr2) = socket_writes tr1 ++ socket_writes tr2.
Proof.
  induction tr1 as [|e tr1 IH]; [reflexivity|].
  destruct e; simpl; now rewrite ?IH.
Qed.

Lemma observer_calls_app (tr1 tr2 : list (@L.Effect Json)) :
  L.observer_calls (tr1 ++ tr2) = L.observer_calls tr1 ++ L.observer_calls tr2.
Proof.
  induction tr1 as [|e tr1 IH]; [reflexivity|].
  destruct e; simpl; now rewrite ?IH.
Qed.

Lemma execute_calls (cb : Fn) (frames : list L.Frame) (g : L.t)
    (call : Fn * option string * @L.Results Json) :
  In call (L.handler_calls (snd (L.execute JSON_parse cb frames g))) ->
  fst (fst call) = cb /\ error_xor_result call.
Proof.
  revert g; induction frames as [|fr frames IH]; intros g; simpl; [tauto|].
  destruct fr as [reply|e|e].
  - assert (H1 : forall c, In c (L.handler_calls (snd (L.returnReply JSON_parse cb reply g))) ->
                           fst (fst c) = cb /\ error_xor_result c).
    { intros c. unfold L.returnReply.
      destruct (reply =? "OK")%string;
        [|destruct ((L.charAt0 reply =? "{")%string || (L.charAt0 reply =? "[")%string);
          [destruct (JSON_parse reply)|]];
        cbn [snd]; destruct (L.debug g); simpl; intros H;
        repeat destruct H as [<-|H]; try destruct H; now split. }
    destruct (L.returnReply JSON_parse cb reply g) as [g1 tr1].
    specialize (IH g1). destruct (L.execute JSON_parse cb frames g1) as [g2 tr2].
    cbn [snd] in *. rewrite handler_calls_app, in_app_iff. intros [H|H]; auto.
  - specialize (IH g). unfold L.returnError.
    destruct (L.execute JSON_parse cb frames g) as [g2 tr2].
    cbn [snd] in *. simpl. intros [<-|H]; [now split | auto].
  - specialize (IH (L.destroy_socket g)). unfold L.returnFatalError.
    destruct (L.execute JSON_parse cb frames (L.destroy_socket g)) as [g2 tr2].
    cbn [snd] in *. simpl. intros [<-|H]; [now split | auto].
Qed.

Lemma execute_keeps_handler (cb : Fn) (frames : list L.Frame) (g : L.t) :
  option_map L.handler (L.socket (fst (L.execute JSON_parse cb frames g)))
  = option_map L.handler (L.socket g)
  /\ L.onCloseCb (fst (L.execute JSON_parse cb frames g)) = L.onCloseCb g.
Proof.
  revert g; induction frames as [|fr frames IH]; intros g; simpl; [now split|].
  assert (D : option_map L.handler (L.socket (L.destroy_socket g))
              = option_map L.handler (L.socket g)
              /\ L.onCloseCb (L.destroy_socket g) = L.onCloseCb g)
    by (unfold L.destroy_socket; simpl; now destruct (L.socket g)).
  destruct fr as [reply|e|e].
  - assert (E : fst (L.returnReply JSON_parse cb reply g) = g).
    { unfold L.returnReply.
      destruct (reply =? "OK")%string;
        [|destruct ((L.charAt0 reply =? "{")%string || (L.charAt0 reply =? "[")%string);
          [destruct (JSON_parse reply)|]]; reflexivity. }
    destruct (L.returnReply JSON_parse cb reply g) as [g1 tr1]. cbn [fst] in E. subst g1.
    specialize (IH g). now destruct (L.execute JSON_parse cb frames g).
  - unfold L.returnError. specialize (IH g).
    now destruct (L.execute JSON_parse cb frames g).
  - unfold L.returnFatalError. specialize (IH (L.destroy_socket g)).
    destruct (L.execute JSON_parse cb frames (L.destroy_socket g)). cbn [fst] in *.
    destruct IH as [IH1 IH2], D as [D1 D2]. split; congruence.
Qed.

Lemma step_handler_calls (e : L.Event) (g : L.t)
    (call : Fn * option string * @L.Results Json) :
  In call (L.handler_calls (snd (L.step JSON_parse e g))) ->
  option_map L.handler (L.socket g) = Some (fst (fst call)) /\ error_xor_result call.
Proof.
  destruct e; simpl.
  - intros [].
  - intros [].
  - unfold L.close. destruct (L.socket g); intros [].
  - destruct (L.socket g) as [s|]; [|intros []].
    destruct (L.destroyed s); [intros []|]. cbn [snd]. unfold L.connectListener.
    destruct (L.password s =? "")%string; intros [].
  - destruct (L.socket g) as [s|]; [|intros []].
    destruct (L.destroyed s); [intros []|]. intros H.
    destruct (execute_calls _ _ _ _ H) as [X1 X2]. split; [|exact X2].
    simpl. now rewrite X1.
  - destruct (L.socket g) as [s|]; [|intros []].
    destruct (L.destroyed s); intros [].
  - destruct (L.socket g) as [s|]; [|intros []].
    destruct (L.destroyed s && negb (L.close_emitted s)); [|intros []].
    cbn [snd]. unfold L.closeListener. destruct (L.onCloseCb g); intros [].
Qed.

Lemma step_handler (e : L.Event) (g : L.t) (f : Fn) :
  option_map L.handler (L.socket (fst (L.step JSON_parse e g))) = Some f ->
  option_map L.handler (L.socket g) = Some f \/ opens_with f e.
Proof.
  destruct e; cbn [L.step].
  - intros H. injection H as H. now right.
  - intros H. now left.
  - unfold L.close. destruct (L.socket g) as [s|] eqn:S; cbn [fst];
      unfold L.destroy_socket; cbn [L.socket]; rewrite ?S; intros H; now left.
  - destruct (L.socket g) as [s|] eqn:S; [destruct (L.destroyed s)|];
      cbn [fst]; rewrite S; intros H; now left.
  - destruct (L.socket g) as [s|] eqn:S; [destruct (L.destroyed s)|];
      cbn [fst]; rewrite ?(proj1 (execute_keeps_handler (L.handler s) frames g));
      rewrite S; intros H; now left.
  - destruct (L.socket g) as [s|] eqn:S; [destruct (L.destroyed s)|];
      cbn [fst]; unfold L.destroy_socket; cbn [L.socket]; rewrite ?S;
      intros H; now left.
  - destruct (L.socket g) as [s|] eqn:S;
      [destruct (L.destroyed s && negb (L.close_emitted s))|];
      cbn [fst L.socket]; rewrite ?S; intros H; now left.
Qed.

Lemma run_handler_calls (events : list L.Event) (g : L.t)
    (call : Fn * option string * @L.Results Json) :
  In call (L.handler_calls (snd (L.run JSON_parse events g))) ->
  (option_map L.handler (L.socket g) = Some (fst (fst call))
   \/ Exists (opens_with (fst (fst call))) events)
  /\ error_xor_result call.
Proof.
  revert g; induction events as [|e events IH]; intros g; simpl; [tauto|].
  pose proof (step_handler_calls e g call) as Hs.
  pose proof (step_handler e g (fst (fst call))) as Hk.
  destruct (L.step JSON_parse e g) as [g1 tr1].
  specialize (IH g1). destruct (L.run JSON_parse events g1) as [g2 tr2].
  cbn [fst snd] in *. rewrite handler_calls_app, in_app_iff. intros [H|H].
  - destruct (Hs H) as [H1 H2]. split; [now left | exact H2].
  - destruct (IH H) as [[H1|H1] H2]; (split; [|exact H2]).
    + destruct (Hk H1) as [K|K]; [now left | right; now left].
    + right. now right.
Qed.

(** X11.  In any run of a channel, every invocation of a handler is one of
    the two shapes of its contract, a result without an error or an error
    without a result, and the handler invoked is one that a call of [open]
    brought. *)
Theorem handler_contract (events : list L.Event) (debug : bool)
    (f : Fn) (err : option string) (results : @L.Results Json) :
  In (f, err, results) (L.handler_calls (snd (L.run JSON_parse events (L.new debug)))) ->
  Exists (opens_with f) events
  /\ ((err = None /\ results <> L.null) \/ (exists e, err = Some e /\ results = L.null)).
Proof.
  intros H. destruct (run_handler_calls _ _ _ H) as [[H1|H1] H2].
  - discriminate H1.
  - split; [exact H1|]. destruct err as [e|], results as [|reply|j];
      try destruct H2.
    + right. now exists e.
    + left. split; [reflexivity | discriminate].
    + left. split; [reflexivity | discriminate].
Qed.

(** An inert channel stays inert until [open] is called again, and in the
    meantime neither invokes a handler nor writes to the socket. *)
Lemma step_inert (e : L.Event) (g : L.t) :
  inert g -> is_open_call e = false ->
  inert (fst (L.step JSON_parse e g))
  /\ L.handler_calls (snd (L.step JSON_parse e g)) = []
  /\ socket_writes (snd (L.step JSON_parse e g)) = [].
Proof.
  unfold inert. intros I O.
  destruct e; try discriminate O; cbn [L.step]; unfold L.close, L.onClose;
    destruct (L.socket g) as [s|] eqn:S; rewrite ?I;
    try destruct (negb (L.close_emitted s));
    cbn [andb fst snd L.socket L.destroy_socket option_map L.destroy L.destroyed];
    rewrite ?S; cbn [option_map L.destroy L.destroyed];
    unfold L.closeListener; try destruct (L.onCloseCb g);
    repeat split; auto.
Qed.

Lemma run_inert (events : list L.Event) (g : L.t) :
  inert g -> existsb is_open_call events = false ->
  inert (fst (L.run JSON_parse events g))
  /\ L.handler_calls (snd (L.run JSON_parse events g)) = []
  /\ socket_writes (snd (L.run JSON_parse events g)) = [].
Proof.
  revert g; induction events as [|e events IH]; intros g I O; simpl in *.
  - now repeat split.
  - apply orb_false_elim in O as [O1 O2].
    destruct (step_inert e g I O1) as (I1 & H1 & W1).
    destruct (L.step JSON_parse e g) as [g1 tr1]. cbn [fst snd] in *.
    destruct (IH g1 I1 O2) as (I2 & H2 & W2).
    destruct (L.run JSON_parse events g1) as [g2 tr2]. cbn [fst snd] in *.
    rewrite handler_calls_app, socket_writes_app, H1, H2, W1, W2. now repeat split.
Qed.

(** In the model, a [close] in a turn of its own silences the socket the
    channel holds until [open] is called again. *)
Lemma run_after_close (g : L.t) (events : list L.Event) :
  existsb is_open_call events = false ->
  L.handler_calls (snd (L.run JSON_parse (L.call_close :: events) g)) = []
  /\ socket_writes (snd (L.run JSON_parse (L.call_close :: events) g)) = [].
Proof.
  intros O.
  assert (I : inert g \/ exists s, L.socket g = Some s).
  { unfold inert. destruct (L.socket g) as [s|]; [right; now exists s | now left]. }
  cbn [L.run L.step]. unfold L.close.
  destruct (L.socket g) as [s|] eqn:S.
  - assert (I1 : inert (L.destroy_socket g))
      by (unfold inert, L.destroy_socket; simpl; now rewrite S).
    destruct (run_inert events _ I1 O) as (_ & H & W).
    destruct (L.run JSON_parse events (L.destroy_socket g)) as [g2 tr2].
    cbn [snd] in *. simpl. now split.
  - assert (I1 : inert g) by (unfold inert; now rewrite S).
    destruct (run_inert events _ I1 O) as (_ & H & W).
    destruct (L.run JSON_parse events g) as [g2 tr2].
    cbn [snd] in *. simpl. now split.
Qed.

(** X12.  On a channel that [open] was called on once, once the caller has
    called [close] in a turn of its own, the channel invokes no handler and
    writes nothing to the socket, whatever the socket and the caller do
    next short of calling [open] again: data, a connection or a closure that
    arrive late are ignored. *)
Theorem close_stops_delivery
  (debug : bool) (host : string) (port : number) (password command : string)
  (cb : Fn) (before after : list L.Event) :
  existsb is_open_call before = false ->
  existsb is_open_call after = false ->
  let opened :=
    fst (L.run JSON_parse (L.call_open host port password command cb :: before)
           (L.new debug)) in
  L.handler_calls (snd (L.run JSON_parse (L.call_close :: after) opened)) = []
  /\ socket_writes (snd (L.run JSON_parse (L.call_close :: after) opened)) = [].
Proof.
  intros _ A. cbv zeta. now apply run_after_close.
Qed.


Lemma execute_observer (cb : Fn) (frames : list L.Frame) (g : L.t) :
  L.observer_calls (snd (L.execute JSON_parse cb frames g)) = [].
Proof.
  revert g; induction frames as [|fr frames IH]; intros g; simpl; [reflexivity|].
  destruct fr as [reply|e|e].
  - assert (E : L.observer_calls (snd (L.returnReply JSON_parse cb reply g)) = []).
    { unfold L.returnReply.
      destruct (reply =? "OK")%string;
        [|destruct ((L.charAt0 reply =? "{")%string || (L.charAt0 reply =? "[")%string);
          [destruct (JSON_parse reply)|]];
        cbn [snd]; now destruct (L.debug g). }
    destruct (L.returnReply JSON_parse cb reply g) as [g1 tr1].
    specialize (IH g1). destruct (L.execute JSON_parse cb frames g1) as [g2 tr2].
    cbn [snd] in *. now rewrite observer_calls_app, E, IH.
  - unfold L.returnError. specialize (IH g).
    destruct (L.execute JSON_parse cb frames g) as [g2 tr2].
    cbn [snd] in *. simpl. exact IH.
  - unfold L.returnFatalError. specialize (IH (L.destroy_socket g)).
    destruct (L.execute JSON_parse cb frames (L.destroy_socket g)) as [g2 tr2].
    cbn [snd] in *. simpl. exact IH.
Qed.

Lemma step_observer_calls (e : L.Event) (g : L.t) (f : Fn) (b : bool) :
  In (f, b) (L.observer_calls (snd (L.step JSON_parse e g))) ->
  b = false /\ L.onCloseCb g = Some f.
Proof.
  destruct e; cbn [L.step]; unfold L.close, L.onClose, L.open;
    try (destruct (L.socket g) as [s|] eqn:S); try (destruct (L.destroyed s) eqn:D);
    cbn [snd L.observer_calls andb]; try (intros []).
  - unfold L.connectListener. destruct (L.password s =? "")%string; intros [].
  - rewrite execute_observer. intros [].
  - destruct (negb (L.close_emitted s)); cbn [snd]; [|intros []].
    unfold L.closeListener. destruct (L.onCloseCb g) as [f'|]; simpl; [|intros []].
    intros [H|[]]. injection H as -> <-. now split.
Qed.

Lemma step_observer (e : L.Event) (g : L.t) (f : Fn) :
  L.onCloseCb (fst (L.step JSON_parse e g)) = Some f ->
  L.onCloseCb g = Some f \/ e = L.call_onClose f.
Proof.
  destruct e; cbn [L.step].
  - intros H. now left.
  - intros H. right. now injection H as ->.
  - unfold L.close. destruct (L.socket g); intros H; now left.
  - destruct (L.socket g) as [s|]; [destruct (L.destroyed s)|]; intros H; now left.
  - destruct (L.socket g) as [s|]; [destruct (L.destroyed s)|];
      rewrite ?(proj2 (execute_keeps_handler (L.handler s) frames g));
      intros H; now left.
  - destruct (L.socket g) as [s|]; [destruct (L.destroyed s)|]; intros H; now left.
  - destruct (L.socket g) as [s|];
      [destruct (L.destroyed s && negb (L.close_emitted s))|]; intros H; now left.
Qed.

Lemma run_observer_calls (events : list L.Event) (g : L.t) (f : Fn) (b : bool) :
  In (f, b) (L.observer_calls (snd (L.run JSON_parse events g))) ->
  b = false /\ (L.onCloseCb g = Some f \/ In (L.call_onClose f) events).
Proof.
  revert g; induction events as [|e events IH]; intros g; simpl; [tauto|].
  pose proof (step_observer_calls e g f b) as Hs.
  pose proof (step_observer e g f) as Hk.
  destruct (L.step JSON_parse e g) as [g1 tr1].
  specialize (IH g1). destruct (L.run JSON_parse events g1) as [g2 tr2].
  cbn [fst snd] in *. rewrite observer_calls_app, in_app_iff. intros [H|H].
  - destruct (Hs H) as [-> H1]. now split; [|left].
  - destruct (IH H) as [-> [H1|H1]]; (split; [reflexivity|]).
    + destruct (Hk H1) as [K|K]; [now left | right; now left].
    + right. now right.
Qed.

(** X13.  In any run of a channel, the close observer is only ever invoked
    with [false], also when the socket was destroyed because of a fatal
    error, and the observer invoked is one that a call of [onClose]
    registered. *)
Theorem observer_always_told_false (events : list L.Event) (debug : bool)
    (f : Fn) (has_error : bool) :
  In (f, has_error) (L.observer_calls (snd (L.run JSON_parse events (L.new debug)))) ->
  has_error = false /\ In (L.call_onClose f) events.
Proof.
  intros H. destruct (run_observer_calls _ _ _ _ H) as [-> [H1|H1]].
  - discriminate H1.
  - now split.
Qed.

Lemma execute_forwarded (cb : Fn) (frames : list L.Frame) (g : L.t) :
  L.handler_calls (snd (L.execute JSON_parse cb frames g))
  = flat_map (forwarded JSON_parse cb) frames.
Proof.
  revert g; induction frames as [|fr frames IH]; intros g; simpl; [reflexivity|].
  destruct fr as [reply|e|e].
  - assert (E : L.handler_calls (snd (L.returnReply JSON_parse cb reply g))
                = forwarded JSON_parse cb (L.Reply reply)).
    { unfold L.returnReply, forwarded.
      destruct (reply =? "OK")%string;
        [|destruct ((L.charAt0 reply =? "{")%string || (L.charAt0 reply =? "[")%string);
          [destruct (JSON_parse reply)|]];
        cbn [snd]; now destruct (L.debug g). }
    destruct (L.returnReply JSON_parse cb reply g) as [g1 tr1].
    specialize (IH g1). destruct (L.execute JSON_parse cb frames g1) as [g2 tr2].
    cbn [snd] in *. now rewrite handler_calls_app, E, IH.
  - unfold L.returnError. specialize (IH g).
    destruct (L.execute JSON_parse cb frames g) as [g2 tr2].
    cbn [snd] in *. simpl. now rewrite IH.
  - unfold L.returnFatalError. specialize (IH (L.destroy_socket g)).
    destruct (L.execute JSON_parse cb frames (L.destroy_socket g)) as [g2 tr2].
    cbn [snd] in *. simpl. now rewrite IH.
Qed.

(** X14.  On an open channel, a chunk of text replies and errors without a
    fatal error is delivered frame by frame, in order and once each: the
    invocations of the handler given to [open] are exactly, frame after
    frame, none for the reply OK, one with the parsed value or the text for
    any other reply, and one with the message for an error; and the channel
    is left as it was, still open, errors included. *)
Theorem frames_delivered_in_order
  (g : L.t) (s : L.Socket) (frames : list L.Frame) :
  L.socket g = Some s -> L.destroyed s = false ->
  Forall L.nonfatal frames ->
  let result := L.step JSON_parse (L.on_data frames) g in
  fst result = g
  /\ L.handler_calls (snd result)
     = flat_map (forwarded JSON_parse (L.handler s)) frames.
Proof.
  intros S D NF. cbv zeta. cbn [L.step]. rewrite S, D.
  split; [now apply execute_nonfatal | apply execute_forwarded].
Qed.

(** X15.  A reply other than OK that [JSON.parse] rejects, or that does not
    start with a brace or a bracket, reaches the handler as the text it came
    as, with no error, and leaves the channel as it was; when it started with
    a brace or a bracket a warning is logged.  A reply that starts with one
    and parses reaches the handler as the parsed value. *)
Theorem unparsed_reply_forwarded_raw (cb : Fn) (reply : string) (g : L.t) :
  reply <> "OK" ->
  let looks_like_json := (L.charAt0 reply =? "{")%string || (L.charAt0 reply =? "[")%string in
  fst (L.returnReply JSON_parse cb reply g) = g
  /\ (looks_like_json = false \/ JSON_parse reply = None ->
        L.handler_calls (snd (L.returnReply JSON_parse cb reply g))
        = [(cb, None, L.raw reply)])
  /\ (looks_like_json = true -> JSON_parse reply = None ->
        In (L.logger_warn ("Unable to parse server response: " ++ reply)%string)
           (snd (L.returnReply JSON_parse cb reply g)))
  /\ (forall j, looks_like_json = true -> JSON_parse reply = Some j ->
        L.handler_calls (snd (L.returnReply JSON_parse cb reply g))
        = [(cb, None, L.parsed j)]).
Proof.
  intros Hne. cbv zeta. unfold L.returnReply.
  apply String.eqb_neq in Hne. rewrite Hne.
  destruct ((L.charAt0 reply =? "{")%string || (L.charAt0 reply =? "[")%string);
    destruct (JSON_parse reply) as [j|]; cbn [fst snd];
    (split; [reflexivity|]); (split; [intros [H|H]; try discriminate H|]);
    try (split; [intros H1 H2; try discriminate H1; try discriminate H2|]);
    try (intros j' H1 H2; try discriminate H1; try discriminate H2);
    destruct (L.debug g); simpl; try reflexivity; try tauto.
  all: try (injection H2 as ->; reflexivity).
Qed.

(** X16.  [close] is safe at any time: on a channel that was never opened it
    does nothing, as does every event the socket could send; called twice it
    leaves the channel as the first call left it; and it never invokes the
    close observer or the handler itself. *)
Theorem close_is_safe (g : L.t) :
  (forall debug events,
     existsb is_open_call events = false ->
     snd (L.run JSON_parse events (L.new debug)) = @nil (@L.Effect Json))
  /\ fst (L.close (Json := Json) (fst (L.close (Json := Json) g)))
     = fst (L.close (Json := Json) g)
  /\ L.observer_calls (snd (L.close (Json := Json) g)) = []
  /\ L.handler_calls (snd (L.close (Json := Json) g)) = [].
Proof.
  split; [|split; [|split]].
  - intros debug events.
    assert (A : forall g0, L.socket g0 = None -> existsb is_open_call events = false ->
                snd (L.run JSON_parse events g0) = []).
    { induction events as [|e events IH]; intros g0 S O; [reflexivity|].
      simpl in O. apply orb_false_elim in O as [O1 O2]. cbn [L.run].
      assert (E : snd (L.step JSON_parse e g0) = []
                  /\ L.socket (fst (L.step JSON_parse e g0)) = None).
      { destruct e; try discriminate O1; cbn [L.step]; unfold L.close, L.onClose;
          rewrite ?S; cbn [fst snd L.socket]; now rewrite ?S. }
      destruct (L.step JSON_parse e g0) as [g1 tr1]. cbn [fst snd] in E.
      destruct E as [-> S1]. specialize (IH g1 S1 O2).
      destruct (L.run JSON_parse events g1) as [g2 tr2]. cbn [snd] in *. now subst. }
    now apply A.
  - unfold L.close. destruct (L.socket g) as [s|] eqn:S; cbn [fst].
    + unfold L.destroy_socket at 1 2. cbn [L.socket]. rewrite S. cbn [option_map fst].
      unfold L.destroy_socket. cbn [L.socket L.debug L.onCloseCb]. rewrite S. reflexivity.
    + now rewrite S.
  - unfold L.close. now destruct (L.socket g).
  - unfold L.close. now destruct (L.socket g).
Qed.


Lemma execute_keeps_credentials (cb : Fn) (frames : list L.Frame) (g : L.t) :
  option_map credentials (L.socket (fst (L.execute JSON_parse cb frames g)))
  = option_map credentials (L.socket g).
Proof.
  revert g; induction frames as [|fr frames IH]; intros g; simpl; [reflexivity|].
  destruct fr as [reply|e|e].
  - assert (E : fst (L.returnReply JSON_parse cb reply g) = g).
    { unfold L.returnReply.
      destruct (reply =? "OK")%string;
        [|destruct ((L.charAt0 reply =? "{")%string || (L.charAt0 reply =? "[")%string);
          [destruct (JSON_parse reply)|]]; reflexivity. }
    destruct (L.returnReply JSON_parse cb reply g) as [g1 tr1]. cbn [fst] in E. subst g1.
    specialize (IH g). now destruct (L.execute JSON_parse cb frames g).
  - unfold L.returnError. specialize (IH g).
    now destruct (L.execute JSON_parse cb frames g).
  - unfold L.returnFatalError. specialize (IH (L.destroy_socket g)).
    destruct (L.execute JSON_parse cb frames (L.destroy_socket g)). cbn [fst] in *.
    rewrite IH. unfold L.destroy_socket. cbn [L.socket]. now destruct (L.socket g).
Qed.

Lemma execute_writes (cb : Fn) (frames : list L.Frame) (g : L.t) :
  socket_writes (snd (L.execute JSON_parse cb frames g)) = [].
Proof.
  revert g; induction frames as [|fr frames IH]; intros g; simpl; [reflexivity|].
  destruct fr as [reply|e|e].
  - assert (E : socket_writes (snd (L.returnReply JSON_parse cb reply g)) = []).
    { unfold L.returnReply.
      destruct (reply =? "OK")%string;
        [|destruct ((L.charAt0 reply =? "{")%string || (L.charAt0 reply =? "[")%string);
          [destruct (JSON_parse reply)|]];
        cbn [snd]; now destruct (L.debug g). }
    destruct (L.returnReply JSON_parse cb reply g) as [g1 tr1].
    specialize (IH g1). destruct (L.execute JSON_parse cb frames g1) as [g2 tr2].
    cbn [snd] in *. now rewrite socket_writes_app, E, IH.
  - unfold L.returnError. specialize (IH g).
    destruct (L.execute JSON_parse cb frames g) as [g2 tr2].
    cbn [snd] in *. simpl. exact IH.
  - unfold L.returnFatalError. specialize (IH (L.destroy_socket g)).
    destruct (L.execute JSON_parse cb frames (L.destroy_socket g)) as [g2 tr2].
    cbn [snd] in *. simpl. exact IH.
Qed.

Lemma step_writes (e : L.Event) (g : L.t) (w : string) :
  In w (socket_writes (snd (L.step JSON_parse e g))) ->
  exists s, L.socket g = Some s /\ frame_of (credentials s) w.
Proof.
  destruct e; cbn [L.step]; unfold L.close, L.onClose, L.open.
  - intros [].
  - intros [].
  - destruct (L.socket g); intros [].
  - destruct (L.socket g) as [s|]; [|intros []].
    destruct (L.destroyed s); [intros []|]. cbn [snd]. unfold L.connectListener.
    intros H. exists s. split; [reflexivity|]. unfold frame_of, credentials. cbn [fst snd].
    destruct (String.eqb_spec (L.password s) ""); simpl in H.
    + destruct H as [<-|[]]. now left.
    + destruct H as [<-|[<-|[]]]; [right; now split | now left].
  - destruct (L.socket g) as [s|]; [|intros []].
    destruct (L.destroyed s); [intros []|]. rewrite execute_writes. intros [].
  - destruct (L.socket g) as [s|]; [|intros []]. destruct (L.destroyed s); intros [].
  - destruct (L.socket g) as [s|]; [|intros []].
    destruct (L.destroyed s && negb (L.close_emitted s)); [|intros []].
    cbn [snd]. unfold L.closeListener. destruct (L.onCloseCb g); intros [].
Qed.

Lemma step_credentials (e : L.Event) (g : L.t) (pc : string * string) :
  option_map credentials (L.socket (fst (L.step JSON_parse e g))) = Some pc ->
  option_map credentials (L.socket g) = Some pc \/ opens_as (fst pc) (snd pc) e.
Proof.
  destruct e; cbn [L.step].
  - intros H. injection H as <-. right. now split.
  - intros H. now left.
  - unfold L.close. destruct (L.socket g) as [s|] eqn:S; cbn [fst];
      unfold L.destroy_socket; cbn [L.socket]; rewrite ?S; intros H; now left.
  - destruct (L.socket g) as [s|] eqn:S; [destruct (L.destroyed s)|];
      cbn [fst]; rewrite S; intros H; now left.
  - destruct (L.socket g) as [s|] eqn:S; [destruct (L.destroyed s)|];
      cbn [fst]; rewrite ?execute_keeps_credentials;
      rewrite S; intros H; now left.
  - destruct (L.socket g) as [s|] eqn:S; [destruct (L.destroyed s)|];
      cbn [fst]; unfold L.destroy_socket; cbn [L.socket]; rewrite ?S;
      intros H; now left.
  - destruct (L.socket g) as [s|] eqn:S;
      [destruct (L.destroyed s && negb (L.close_emitted s))|];
      cbn [fst L.socket]; rewrite ?S; intros H; now left.
Qed.

Lemma run_writes (events : list L.Event) (g : L.t) (w : string) :
  In w (socket_writes (snd (L.run JSON_parse events g))) ->
  exists pc,
    frame_of pc w
    /\ (option_map credentials (L.socket g) = Some pc
        \/ Exists (opens_as (fst pc) (snd pc)) events).
Proof.
  revert g; induction events as [|e events IH]; intros g; simpl; [tauto|].
  pose proof (step_writes e g w) as Hs.
  pose proof (step_credentials e g) as Hk.
  destruct (L.step JSON_parse e g) as [g1 tr1].
  specialize (IH g1). destruct (L.run JSON_parse events g1) as [g2 tr2].
  cbn [fst snd] in *. rewrite socket_writes_app, in_app_iff. intros [H|H].
  - destruct (Hs H) as (s & S & F). exists (credentials s). split; [exact F|].
    left. now rewrite S.
  - destruct (IH H) as (pc & F & [H1|H1]); exists pc; (split; [exact F|]).
    + destruct (Hk pc H1) as [K|K]; [now left | right; now left].
    + right. now right.
Qed.

(** X17.  In any run of a channel, whatever is written to the socket is the
    command, or the AUTH line with the password, of a call of [open], each
    ended by CR LF; an AUTH line is written only for a password that is not
    empty.  On connection the AUTH line, if any, comes first and the command
    right after it. *)
Theorem writes_are_auth_or_command (events : list L.Event) (debug : bool) (w : string) :
  (In w (socket_writes (snd (L.run JSON_parse events (L.new debug)))) ->
   exists password command,
     Exists (opens_as password command) events
     /\ (w = (command ++ L.crlf)%string
         \/ (password <> "" /\ w = ("AUTH " ++ password ++ L.crlf)%string)))
  /\ forall host port password command cb,
       socket_writes
         (snd (L.run JSON_parse
                 [L.call_open host port password command cb; L.on_connect] (L.new debug)))
       = (if (password =? "")%string then []
          else [("AUTH " ++ password ++ L.crlf)%string])
         ++ [(command ++ L.crlf)%string].
Proof.
  split.
  - intros H. destruct (run_writes _ _ _ H) as ([p c] & F & [H1|H1]).
    + discriminate H1.
    + exists p, c. split; [exact H1 | exact F].
  - intros host port password command cb.
    cbn [L.run L.step L.open L.new L.socket L.destroyed fst snd app].
    unfold L.connectListener. cbn [L.password L.command].
    destruct (password =? "")%string; reflexivity.
Qed.

End ChannelInvariants.

Lemma handler_contract_witness :
  Exists (opens_with 5%nat)
    [L.call_open "localhost" 9851 "" "NEARBY fleet FENCE POINT 33 -115 1000" 5%nat;
     L.on_connect; L.on_data [L.Reply "OK"; L.Reply "hello"]]
  /\ ((@None string = None /\ L.raw (Json := string) "hello" <> L.null)
      \/ exists e, @None string = Some e /\ L.raw (Json := string) "hello" = L.null).
Proof.
  apply (handler_contract (fun s : string => Some s)
           [L.call_open "localhost" 9851 "" "NEARBY fleet FENCE POINT 33 -115 1000" 5%nat;
            L.on_connect; L.on_data [L.Reply "OK"; L.Reply "hello"]]
           false 5%nat None (L.raw "hello")).
  simpl. left. reflexivity.
Defined.

Lemma close_stops_delivery_witness :
  let parse := fun s : string => Some s in
  let opened :=
    fst (L.run parse
           [L.call_open "localhost" 9851 "secret" "NEARBY fleet FENCE POINT 33 -115 1000" 5%nat;
            L.call_onClose 9%nat]
           (L.new false)) in
  let tr :=
    snd (L.run parse
           [L.call_close; L.on_connect; L.on_data [L.Reply "{}"; L.ReplyError "ERR"]; L.on_close]
           opened) in
  L.handler_calls tr = [] /\ socket_writes tr = [].
Proof.
  cbv zeta.
  apply (close_stops_delivery (fun s : string => Some s) false "localhost" 9851 "secret"
           "NEARBY fleet FENCE POINT 33 -115 1000" 5%nat
           [L.call_onClose 9%nat]
           [L.on_connect; L.on_data [L.Reply "{}"; L.ReplyError "ERR"]; L.on_close]).
  - reflexivity.
  - reflexivity.
Defined.

Lemma observer_always_told_false_witness :
  false = false
  /\ In (L.call_onClose 9%nat)
       [L.call_open "localhost" 9851 "" "NEARBY fleet FENCE POINT 33 -115 1000" 5%nat;
        L.call_onClose 9%nat; L.on_data [L.FatalError "Protocol error"]; L.on_close].
Proof.
  apply (observer_always_told_false (fun s : string => Some s)
           [L.call_open "localhost" 9851 "" "NEARBY fleet FENCE POINT 33 -115 1000" 5%nat;
            L.call_onClose 9%nat; L.on_data [L.FatalError "Protocol error"]; L.on_close]
           false 9%nat false).
  simpl. left. reflexivity.
Defined.

Lemma frames_delivered_in_order_witness :
  let parse := fun s : string => if (s =? "{}")%string then Some s else None in
  let s := L.mkSocket false false "" "NEARBY fleet FENCE POINT 33 -115 1000" 5%nat in
  let g := L.mk false (Some s) None in
  let result :=
    L.step parse
      (L.on_data [L.Reply "OK"; L.ReplyError "ERR x"; L.Reply "{}"; L.Reply "[1";
                  L.Reply "hello"]) g in
  fst result = g
  /\ L.handler_calls (snd result)
     = [(5%nat, Some "ERR x", L.null); (5%nat, None, L.parsed "{}");
        (5%nat, None, L.raw "[1"); (5%nat, None, L.raw "hello")].
Proof.
  cbv zeta.
  apply (frames_delivered_in_order
           (fun s : string => if (s =? "{}")%string then Some s else None)
           (L.mk false
              (Some (L.mkSocket false false "" "NEARBY fleet FENCE POINT 33 -115 1000" 5%nat))
              None)
           (L.mkSocket false false "" "NEARBY fleet FENCE POINT 33 -115 1000" 5%nat)
           [L.Reply "OK"; L.ReplyError "ERR x"; L.Reply "{}"; L.Reply "[1";
            L.Reply "hello"]).
  - reflexivity.
  - reflexivity.
  - repeat constructor.
Defined.

Lemma unparsed_reply_forwarded_raw_witness :
  L.handler_calls
    (snd (L.returnReply (fun _ : string => @None unit) 5%nat "{not json" (L.new false)))
  = [(5%nat, None, L.raw "{not json")].
Proof.
  apply (proj1 (proj2 (unparsed_reply_forwarded_raw (fun _ : string => @None unit)
                         5%nat "{not json" (L.new false) ltac:(discriminate)))).
  right. reflexivity.
Defined.

Lemma writes_are_auth_or_command_witness :
  exists password command,
    Exists (opens_as password command)
      [L.call_open "localhost" 9851 "secret" "NEARBY fleet FENCE POINT 33 -115 1000" 5%nat;
       L.on_connect]
    /\ (("AUTH secret" ++ L.crlf)%string = (command ++ L.crlf)%string
        \/ (password <> ""
            /\ ("AUTH secret" ++ L.crlf)%string = ("AUTH " ++ password ++ L.crlf)%string)).
Proof.
  apply (proj1 (writes_are_auth_or_command (fun s : string => Some s)
                  [L.call_open "localhost" 9851 "secret"
                     "NEARBY fleet FENCE POINT 33 -115 1000" 5%nat;
                   L.on_connect]
                  false ("AUTH secret" ++ L.crlf)%string)).
  simpl. left. reflexivity.
Defined.
